(** * XIPCompressor: byte-pair compression with a trailer table

    A shallow embedding of [src/compressor.py] (class [XIPCompressor]) and the
    properties of its encoder, allocator and decoder.

    Python [bytes] are lists of [Byte.byte]; the two ordered dictionaries of
    the program (the lookup table and the pair-frequency table) are
    association lists in insertion order; exceptions are an explicit error
    type; the random source is an oracle read through a cursor. *)

From Stdlib Require Import List Arith ZArith Lia Bool.
From Stdlib Require Import Strings.Byte.
Import ListNotations.

Set Implicit Arguments.

(** ** Values, exceptions *)

Definition bytes := list byte.

(** A two-octet [bytes] object such as [highest_occuring_pair]. *)
Definition pair := (byte * byte)%type.

Definition pair_eqb (p q : pair) : bool :=
  Byte.eqb (fst p) (fst q) && Byte.eqb (snd p) (snd q).

(** The exceptions the program can raise.  [TableExhausted] is the plain
    [Exception("Maximum characters reached in lookup table, ...")] of
    [__get_replacement]; the others are raised by the interpreter. *)
Inductive exn : Set :=
| TableExhausted
| RecursionError
| UnboundLocalError
| IndexError
| OverflowError.

Inductive result (A : Type) : Type :=
| Ok (a : A)
| Raise (e : exn).

Arguments Ok {A} a.
Arguments Raise {A} e.

Definition bind {A B} (r : result A) (f : A -> result B) : result B :=
  match r with
  | Ok a => f a
  | Raise e => Raise e
  end.

Notation "x <- r ;; k" := (bind r (fun x => k))
  (at level 61, r at next level, right associativity).

(** ** Ordered dictionaries *)

Section Dict.
Context {K V : Type} (keq : K -> K -> bool).

(** [d[k]], when [k in d]. *)
Fixpoint dict_get (k : K) (d : list (K * V)) : option V :=
  match d with
  | [] => None
  | (k', v) :: t => if keq k' k then Some v else dict_get k t
  end.

(** [d[k] = v]: an existing key keeps its position, a new one goes last. *)
Fixpoint dict_set (k : K) (v : V) (d : list (K * V)) : list (K * V) :=
  match d with
  | [] => [(k, v)]
  | (k', v') :: t =>
      if keq k' k then (k', v) :: t else (k', v') :: dict_set k v t
  end.

Definition dict_keys (d : list (K * V)) : list K := map fst d.

Definition dict_mem (k : K) (d : list (K * V)) : bool :=
  existsb (fun k' => keq k' k) (dict_keys d).
End Dict.

(** [b in data] for a one-octet [b]. *)
Definition bytes_mem (b : byte) (data : bytes) : bool :=
  existsb (fun x => Byte.eqb x b) data.

(** [data[i]] for [0 <= i]. *)
Definition getitem (data : bytes) (i : nat) : result byte :=
  match nth_error data i with
  | Some b => Ok b
  | None => Raise IndexError
  end.

(** [data[start:]], with Python's treatment of a negative start. *)
Definition slice_from {A} (start : Z) (data : list A) : list A :=
  let len := Z.of_nat (length data) in
  let lo := if (start <? 0)%Z then Z.max (start + len) 0 else Z.min start len in
  skipn (Z.to_nat lo) data.

(** [n.to_bytes()]: one octet, [OverflowError] from 256 on. *)
Definition to_bytes (n : nat) : result byte :=
  match Byte.of_nat n with
  | Some b => Ok b
  | None => Raise OverflowError
  end.

(** [data.replace(old, new)] for a two-octet [old] and a one-octet [new]:
    one scan from the left that resumes after each match. *)
Fixpoint replace (old : pair) (new : byte) (data : bytes) : bytes :=
  match data with
  | [] => []
  | a :: tl =>
      match tl with
      | [] => [a]
      | b :: rest =>
          if pair_eqb (a, b) old
          then new :: replace old new rest
          else a :: replace old new tl
      end
  end.

(** ** The compressor object *)

Definition table := list (byte * pair).

(** The two attributes set by [__init__].  [__raw_file_data] starts as
    [None] and is assigned by [compress_binary] before its only reader,
    [__get_replacement], runs; the empty sequence stands for [None]. *)
Record XIPCompressor : Type := mkXIP {
  lookup_table : table;
  raw_file_data : bytes
}.

Definition init : XIPCompressor :=
  {| lookup_table := []; raw_file_data := [] |}.

(** [len(set(data))]. *)
Definition unique_byte_count (data : bytes) : nat :=
  length (nodup Byte.byte_eq_dec data).

(** ** Pair frequencies and the most frequent pair *)

(** The pairs [(data[i], data[i+1])] for [i] in [range(len(data) - 1)];
    [data_len] is [len(compressed_data)] every time the loop reads it. *)
Fixpoint adjacent_pairs (data : bytes) : list pair :=
  match data with
  | [] => []
  | a :: tl =>
      match tl with
      | [] => []
      | b :: _ => (a, b) :: adjacent_pairs tl
      end
  end.

Definition count_pair (pairs : list (pair * nat)) (p : pair)
  : list (pair * nat) :=
  match dict_get pair_eqb p pairs with
  | Some c => dict_set pair_eqb p (c + 1) pairs
  | None => dict_set pair_eqb p 1 pairs
  end.

Definition pair_frequencies (data : bytes) : list (pair * nat) :=
  fold_left count_pair (adjacent_pairs data) [].

(** One turn of the scan of [__max_pair]; [max_pair] is unbound ([None])
    until a first item has been seen. *)
Definition max_step (acc : option pair * nat) (item : pair * nat)
  : option pair * nat :=
  let '(key, freq) := item in
  if snd acc <=? freq then (Some key, freq) else acc.

Definition max_pair (data : list (pair * nat)) : result (pair * nat) :=
  match fold_left max_step data (None, 0) with
  | (Some p, max_freq) => Ok (p, max_freq)
  | (None, _) => Raise UnboundLocalError
  end.

Section Engine.

(** [random.randbytes(1)]: the [k]-th draw of the random source. *)
Variable randbytes : nat -> byte.

(** How many nested calls the interpreter still allows a recursive
    method when it is first entered. *)
Variable recursion_limit : nat.

(** ** The allocator *)

(** [depth] counts the nested calls that remain; the result carries the
    cursor of the random source after the call. *)
Fixpoint get_replacement (depth : nat) (self : XIPCompressor) (k : nat)
  : result byte * nat :=
  if (Z.of_nat (length (lookup_table self))
      =? 256 - Z.of_nat (unique_byte_count (raw_file_data self)))%Z
  then (Raise TableExhausted, k)
  else
    let replacement := randbytes k in
    if dict_mem Byte.eqb replacement (lookup_table self)
       || bytes_mem replacement (raw_file_data self)
    then
      match depth with
      | 0 => (Raise RecursionError, S k)
      | S depth' => get_replacement depth' self (S k)
      end
    else (Ok replacement, S k).

(** ** Expansion *)

Fixpoint get_original (depth : nat) (b : byte) (t : table) : result bytes :=
  match dict_get Byte.eqb b t with
  | Some (c0, c1) =>
      match depth with
      | 0 => Raise RecursionError
      | S depth' =>
          b1 <- get_original depth' c0 t ;;
          b2 <- get_original depth' c1 t ;;
          Ok (b1 ++ b2)
      end
  | None => Ok [b]
  end.

(** ** The encoder *)

Record loop_state : Type := mkLoop {
  self : XIPCompressor;
  compressed_data : bytes;
  last_pair_frequency : nat;
  cursor : nat
}.

Inductive iteration : Type :=
| Next (st : loop_state)    (* the body ran to its end *)
| Break (k : nat)           (* the allocator raised, [break] *)
| Crash (e : exn).          (* an exception left the loop *)

Definition set_table (s : XIPCompressor) (t : table) : XIPCompressor :=
  {| lookup_table := t; raw_file_data := raw_file_data s |}.

(** The body of [while last_pair_frequency != 1].  [except Exception]
    catches whatever [__get_replacement] raises. *)
Definition loop_body (st : loop_state) : iteration :=
  let pairs := pair_frequencies (compressed_data st) in
  match get_replacement recursion_limit (self st) (cursor st) with
  | (Raise _, k') => Break k'
  | (Ok replacement, k') =>
      match max_pair pairs with
      | Raise e => Crash e
      | Ok (highest_occuring_pair, freq) =>
          Next {| self := set_table (self st)
                            (dict_set Byte.eqb replacement
                               highest_occuring_pair
                               (lookup_table (self st)));
                  compressed_data :=
                    replace highest_occuring_pair replacement
                      (compressed_data st);
                  last_pair_frequency := freq;
                  cursor := k' |}
      end
  end.

(** The loop, with [fuel] turns at most; [None] when they run out. *)
Fixpoint compress_loop (fuel : nat) (st : loop_state)
  : option (result loop_state) :=
  if last_pair_frequency st =? 1 then Some (Ok st)
  else
    match fuel with
    | 0 => None
    | S fuel' =>
        match loop_body st with
        | Next st' => compress_loop fuel' st'
        | Break k' =>
            Some (Ok {| self := self st;
                        compressed_data := compressed_data st;
                        last_pair_frequency := last_pair_frequency st;
                        cursor := k' |})
        | Crash e => Some (Raise e)
        end
    end.

(** [key + value] for every item of the lookup table. *)
Definition trailer (t : table) : bytes :=
  flat_map (fun '(key, (c0, c1)) => [key; c0; c1]) t.

(** What follows the loop: the count octet, the data, the table. *)
Definition serialize (st : loop_state) : result bytes :=
  replacement_length <- to_bytes (length (lookup_table (self st))) ;;
  Ok (replacement_length :: compressed_data st
        ++ trailer (lookup_table (self st))).

(** The state in which [compress_binary] enters its loop: the file's
    octets [raw] are stored in the object, whose table is left as is. *)
Definition enter (s : XIPCompressor) (raw : bytes) (k : nat) : loop_state :=
  {| self := {| lookup_table := lookup_table s; raw_file_data := raw |};
     compressed_data := raw;
     last_pair_frequency := 0;
     cursor := k |}.

(** [compress_binary] on the octets [raw] of the file: the artifact, the
    object after the call and the cursor of the random source. *)
Definition compress_binary (fuel : nat) (s : XIPCompressor) (raw : bytes)
    (k : nat) : option (result (bytes * XIPCompressor * nat)) :=
  match compress_loop fuel (enter s raw k) with
  | None => None
  | Some (Raise e) => Some (Raise e)
  | Some (Ok st) =>
      Some (compressed_output <- serialize st ;;
            Ok (compressed_output, self st, cursor st))
  end.

(** ** The decoder *)

Fixpoint reconstruct_loop (table_chunk : bytes) (range : list nat)
    (t : table) : result table :=
  match range with
  | [] => Ok t
  | i :: range' =>
      c0 <- getitem table_chunk (i + 1) ;;
      c1 <- getitem table_chunk (i + 2) ;;
      key <- getitem table_chunk i ;;
      reconstruct_loop table_chunk range' (dict_set Byte.eqb key (c0, c1) t)
  end.

(** [range(0, 3 * n, 3)]. *)
Definition range3 (n : nat) : list nat := map (fun j => 3 * j) (seq 0 n).

Definition reconstruct_dict (data : bytes) : result table :=
  b0 <- getitem data 0 ;;
  let byte_len := Byte.to_nat b0 in
  let table_chunk := slice_from (-3 * Z.of_nat byte_len) data in
  reconstruct_loop table_chunk (range3 byte_len) [].

Fixpoint decompress_loop (compressed_bytes : bytes) (t : table)
    (range : list nat) (decompressed_data : bytes) : result bytes :=
  match range with
  | [] => Ok decompressed_data
  | i :: range' =>
      b <- getitem compressed_bytes i ;;
      o <- get_original recursion_limit b t ;;
      decompress_loop compressed_bytes t range' (decompressed_data ++ o)
  end.

Definition decompress_binary (compressed_bytes : bytes) : result bytes :=
  reconstruction_dict <- reconstruct_dict compressed_bytes ;;
  let data_len :=
    (Z.of_nat (length compressed_bytes)
     - Z.of_nat (length reconstruction_dict) * 3)%Z in
  decompress_loop compressed_bytes reconstruction_dict
    (seq 1 (Z.to_nat (data_len - 1))) [].

End Engine.

(** A random source that draws the octets 0, 1, 2, ... in ascending order,
    as the allocation policy of the specification's worked scenario does. *)
Definition ascending (k : nat) : byte :=
  match Byte.of_nat (k mod 256) with
  | Some b => b
  | None => x00
  end.

(** ** Counting pairs *)

(** Equality of pairs is decidable. *)
Definition pair_eq_dec (p q : pair) : {p = q} + {p <> q}.
Proof. decide equality; apply Byte.byte_eq_dec. Defined.

(** How often [p] occurs in [l]. *)
Definition occurrences (p : pair) (l : list pair) : nat :=
  count_occ pair_eq_dec l p.

(** The distinct elements of [l], each at the place of its first
    occurrence. *)
Fixpoint first_seen (l : list pair) : list pair :=
  match l with
  | [] => []
  | p :: t => p :: filter (fun q => negb (pair_eqb p q)) (first_seen t)
  end.

(** [(p, f)] is the last item of [items] whose count is maximal. *)
Definition last_maximum (items : list (pair * nat)) (p : pair) (f : nat)
  : Prop :=
  exists l1 l2,
    items = l1 ++ (p, f) :: l2
    /\ Forall (fun it => snd it <= f) l1
    /\ Forall (fun it => snd it < f) l2.

(** ** The allocator's conditions *)

(** The table holds as many codes as the input leaves free. *)
Definition exhausted (s : XIPCompressor) : Prop :=
  (Z.of_nat (length (lookup_table s))
   = 256 - Z.of_nat (unique_byte_count (raw_file_data s)))%Z.

(** [b] is neither a key of the table nor an octet of the input. *)
Definition admissible (s : XIPCompressor) (b : byte) : Prop :=
  ~ In b (dict_keys (lookup_table s)) /\ ~ In b (raw_file_data s).

(** ** Expansion by the table, newest entry first *)

Fixpoint decode (rt : table) (b : byte) : bytes :=
  match rt with
  | [] => [b]
  | (key, (c0, c1)) :: older =>
      if Byte.eqb key b then decode older c0 ++ decode older c1
      else decode older b
  end.

(** Every code is new when it is entered, and stands for octets of the
    input or for older codes. *)
Inductive wf_table (raw : bytes) : table -> Prop :=
| wf_nil : wf_table raw []
| wf_cons key c0 c1 older :
    ~ In key raw -> ~ In key (dict_keys older) ->
    In c0 raw \/ In c0 (dict_keys older) ->
    In c1 raw \/ In c1 (dict_keys older) ->
    wf_table raw older ->
    wf_table raw ((key, (c0, c1)) :: older).

(** ** The octet space *)

(** Every octet, in ascending order. *)
Definition all_bytes : list byte := map ascending (seq 0 256).

(** ** States of the encoder loop *)

(** Every octet of the working buffer is an octet of the input or a key
    of the table. *)
Definition buffer_inv (st : loop_state) : Prop :=
  forall b, In b (compressed_data st) ->
            In b (raw_file_data (self st))
            \/ In b (dict_keys (lookup_table (self st))).

(** [reachable s0 raw k n st]: [compress_binary], called on the object
    [s0] with the input [raw], tests its loop condition in the state [st]
    after [n] complete turns of the loop. *)
Inductive reachable (randbytes : nat -> byte) (recursion_limit : nat)
    (s0 : XIPCompressor) (raw : bytes) (k : nat)
  : nat -> loop_state -> Prop :=
| reach_enter : reachable randbytes recursion_limit s0 raw k 0 (enter s0 raw k)
| reach_next n st st' :
    reachable randbytes recursion_limit s0 raw k n st ->
    last_pair_frequency st <> 1 ->
    loop_body randbytes recursion_limit st = Next st' ->
    reachable randbytes recursion_limit s0 raw k (S n) st'.

(** The invariant of a call on a new object with an input of two octets
    or more. *)
Record encoder_inv (raw : bytes) (st : loop_state) : Prop := {
  inv_raw : raw_file_data (self st) = raw;
  inv_wf : wf_table raw (rev (lookup_table (self st)));
  inv_buf : buffer_inv st;
  inv_dec :
    flat_map (decode (rev (lookup_table (self st)))) (compressed_data st)
    = raw;
  inv_size :
    (Z.of_nat (length (lookup_table (self st)))
     <= 256 - Z.of_nat (unique_byte_count raw))%Z;
  inv_len : last_pair_frequency st <> 1 -> 2 <= length (compressed_data st)
}.

(** What holds of the table along a call on a new object. *)
Record keys_inv (raw : bytes) (n : nat) (st : loop_state) : Prop := {
  keys_raw : raw_file_data (self st) = raw;
  keys_NoDup : NoDup (dict_keys (lookup_table (self st)));
  keys_fresh :
    forall key, In key (dict_keys (lookup_table (self st))) -> ~ In key raw;
  keys_length : length (lookup_table (self st)) = n;
  keys_size :
    (Z.of_nat (length (lookup_table (self st)))
     <= 256 - Z.of_nat (unique_byte_count raw))%Z;
  keys_input : n = 0 \/ raw <> []
}.

(** The invariant of a call on an object whose table already holds the
    entries [old]: the entries [added] by this call stand for octets of
    the input or for older entries of this call. *)
Record reuse_inv (old : table) (raw : bytes) (added : table)
    (st : loop_state) : Prop := {
  reuse_raw : raw_file_data (self st) = raw;
  reuse_table : lookup_table (self st) = old ++ added;
  reuse_wf : wf_table raw (rev added);
  reuse_apart :
    forall key, In key (dict_keys added) -> ~ In key (dict_keys old);
  reuse_buf :
    forall b, In b (compressed_data st) ->
              In b raw \/ In b (dict_keys added);
  reuse_dec : flat_map (decode (rev added)) (compressed_data st) = raw;
  reuse_size :
    (Z.of_nat (length (old ++ added))
     <= 256 - Z.of_nat (unique_byte_count raw))%Z;
  reuse_len : last_pair_frequency st <> 1 -> 2 <= length (compressed_data st)
}.

(** ** Reading an artifact *)

(** The first [n] three-octet records of a trailer. *)
Fixpoint records (n : nat) (chunk : bytes) : table :=
  match n, chunk with
  | S n', key :: c0 :: c1 :: tl => (key, (c0, c1)) :: records n' tl
  | _, _ => []
  end.

Definition set_record (t : table) (r : byte * pair) : table :=
  dict_set Byte.eqb (fst r) (snd r) t.

(** The dictionary that results from entering the records in order. *)
Definition dict_of (rs : table) : table := fold_left set_record rs [].

(** The expansion of the octets of a payload, in order. *)
Fixpoint expand_payload (depth : nat) (t : table) (payload : bytes)
  : result bytes :=
  match payload with
  | [] => Ok []
  | o :: rest =>
      x <- get_original depth o t ;;
      y <- expand_payload depth t rest ;;
      Ok (x ++ y)
  end.

(** [expand t o out]: [out] is the expansion of the octet [o] by [t]. *)
Inductive expand (t : table) : byte -> bytes -> Prop :=
| expand_literal o :
    dict_get Byte.eqb o t = None -> expand t o [o]
| expand_code o c0 c1 out0 out1 :
    dict_get Byte.eqb o t = Some (c0, c1) ->
    expand t c0 out0 -> expand t c1 out1 ->
    expand t o (out0 ++ out1).

(** ** The artifact as the specification reads it *)

(** The entry count: the first octet of the artifact. *)
Definition entry_count (artifact : bytes) : nat :=
  Byte.to_nat (hd x00 artifact).

(** The trailer: the last [3 * entry_count] octets. *)
Definition spec_trailer (artifact : bytes) : bytes :=
  skipn (length artifact - 3 * entry_count artifact) artifact.

(** The table: the consecutive records [code, c0, c1] of the trailer. *)
Definition spec_table (artifact : bytes) : table :=
  records (entry_count artifact) (spec_trailer artifact).

(** The payload: the octets from offset 1 to the start of the trailer,
    [len(artifact) - 1 - 3 * entry_count] of them. *)
Definition spec_payload (artifact : bytes) : bytes :=
  firstn (length artifact - 1 - 3 * entry_count artifact) (skipn 1 artifact).

(** ** Round trip *)

(** Compression on a new object followed by decompression. *)
Definition round_trip (randbytes : nat -> byte) (recursion_limit fuel : nat)
    (raw : bytes) (k : nat) : option (result bytes) :=
  match compress_binary randbytes recursion_limit fuel init raw k with
  | None => None
  | Some (Raise e) => Some (Raise e)
  | Some (Ok (compressed_output, _, _)) =>
      Some (decompress_binary recursion_limit compressed_output)
  end.

(** ** Concrete inputs *)

(** The input of the worked scenario and the states of its run with the
    ascending draws. *)
Definition scenario_raw : bytes := [x41; x41; x41].

Definition scenario_st1 : loop_state :=
  {| self := {| lookup_table := [(x00, (x41, x41))];
                raw_file_data := scenario_raw |};
     compressed_data := [x00; x41];
     last_pair_frequency := 2;
     cursor := 1 |}.

Definition scenario_st2 : loop_state :=
  {| self := {| lookup_table := [(x00, (x41, x41)); (x01, (x00, x41))];
                raw_file_data := scenario_raw |};
     compressed_data := [x01];
     last_pair_frequency := 1;
     cursor := 2 |}.

Definition scenario_artifact : bytes :=
  [x02; x01; x00; x41; x41; x01; x00; x41].

(** An input with two pairs of the same maximal count, and the state after
    the first turn on it. *)
Definition tie_raw : bytes := [x41; x42; x41; x42; x43; x44; x43; x44].

Definition tie_st1 : loop_state :=
  {| self := {| lookup_table := [(x00, (x43, x44))];
                raw_file_data := tie_raw |};
     compressed_data := [x41; x42; x41; x42; x00; x00];
     last_pair_frequency := 2;
     cursor := 1 |}.

(** An artifact whose two trailer records carry the same code. *)
Definition duplicate_artifact : bytes :=
  [x02; x41; x01; x02; x03; x01; x04; x05].

(** The object left by a first call on the input [x41; x41]. *)
Definition used : XIPCompressor :=
  {| lookup_table := [(x00, (x41, x41))]; raw_file_data := [x41; x41] |}.

(** * Properties *)

(** ** Octets, pairs, dictionaries *)

Lemma byte_eqb_eq (a b : byte) : Byte.eqb a b = true <-> a = b.
Proof.
  split; [apply Byte.byte_dec_bl | apply Byte.byte_dec_lb].
Qed.

Lemma byte_eqb_refl (a : byte) : Byte.eqb a a = true.
Proof. now apply byte_eqb_eq. Qed.

Lemma byte_eqb_neq (a b : byte) : Byte.eqb a b = false <-> a <> b.
Proof.
  split.
  - apply Byte.eqb_false.
  - intros Hn. destruct (Byte.eqb a b) eqn:E; [|reflexivity].
    apply byte_eqb_eq in E. contradiction.
Qed.

Lemma pair_eqb_eq (p q : pair) : pair_eqb p q = true <-> p = q.
Proof.
  destruct p as [a b], q as [c d]. unfold pair_eqb. simpl.
  rewrite andb_true_iff, !byte_eqb_eq. split.
  - intros [-> ->]. reflexivity.
  - intros [= -> ->]. auto.
Qed.

Lemma pair_eqb_refl (p : pair) : pair_eqb p p = true.
Proof. now apply pair_eqb_eq. Qed.

Lemma pair_eqb_neq (p q : pair) : pair_eqb p q = false <-> p <> q.
Proof.
  rewrite <- pair_eqb_eq. destruct (pair_eqb p q); split; congruence.
Qed.

Lemma bytes_mem_In (b : byte) (data : bytes) :
  bytes_mem b data = true <-> In b data.
Proof.
  unfold bytes_mem. rewrite existsb_exists. split.
  - intros [x [Hx E]]. apply byte_eqb_eq in E. now subst.
  - intros H. exists b. split; [assumption | apply byte_eqb_refl].
Qed.

Lemma dict_mem_In (V : Type) (k : byte) (d : list (byte * V)) :
  dict_mem Byte.eqb k d = true <-> In k (dict_keys d).
Proof.
  unfold dict_mem. rewrite existsb_exists. split.
  - intros [x [Hx E]]. apply byte_eqb_eq in E. now subst.
  - intros H. exists k. split; [assumption | apply byte_eqb_refl].
Qed.

Section DictFacts.
Context {K V : Type} (keq : K -> K -> bool).
Hypothesis keq_eq : forall a b, keq a b = true <-> a = b.

Lemma dict_get_None (k : K) (d : list (K * V)) :
  dict_get keq k d = None <-> ~ In k (dict_keys d).
Proof.
  induction d as [|[k' v] t IH]; simpl.
  - tauto.
  - destruct (keq k' k) eqn:E.
    + apply keq_eq in E. split; [discriminate | intros H; exfalso; auto].
    + rewrite IH. split.
      * intros H [->|H']; [|auto].
        assert (keq k k = true) by now apply keq_eq. congruence.
      * tauto.
Qed.

Lemma dict_get_In (k : K) (v : V) (d : list (K * V)) :
  dict_get keq k d = Some v -> In (k, v) d.
Proof.
  induction d as [|[k' v'] t IH]; simpl; [discriminate|].
  destruct (keq k' k) eqn:E.
  - apply keq_eq in E. intros [= ->]. subst. now left.
  - auto.
Qed.

Lemma dict_get_NoDup (k : K) (v : V) (d : list (K * V)) :
  NoDup (dict_keys d) -> In (k, v) d -> dict_get keq k d = Some v.
Proof.
  induction d as [|[k' v'] t IH]; simpl; [tauto|].
  intros Hnd [[= -> ->]|Hin].
  - assert (keq k k = true) as -> by now apply keq_eq. reflexivity.
  - inversion Hnd as [|? ? Hk Ht]; subst.
    destruct (keq k' k) eqn:E.
    + apply keq_eq in E. subst. exfalso. apply Hk.
      change k with (fst (k, v)). now apply in_map.
    + auto.
Qed.

Lemma dict_set_fresh (k : K) (v : V) (d : list (K * V)) :
  ~ In k (dict_keys d) -> dict_set keq k v d = d ++ [(k, v)].
Proof.
  induction d as [|[k' v'] t IH]; simpl; [reflexivity|].
  intros H. destruct (keq k' k) eqn:E.
  - apply keq_eq in E. exfalso. auto.
  - rewrite IH; [reflexivity | tauto].
Qed.

Lemma dict_set_keys_present (k : K) (v : V) (d : list (K * V)) :
  In k (dict_keys d) -> dict_keys (dict_set keq k v d) = dict_keys d.
Proof.
  induction d as [|[k' v'] t IH]; simpl; [tauto|].
  intros H. destruct (keq k' k) eqn:E; simpl; [reflexivity|].
  f_equal. apply IH. destruct H as [->|H]; [|assumption].
  assert (keq k k = true) by now apply keq_eq. congruence.
Qed.
End DictFacts.

Lemma dict_keys_app (K V : Type) (d1 d2 : list (K * V)) :
  dict_keys (d1 ++ d2) = dict_keys d1 ++ dict_keys d2.
Proof. apply map_app. Qed.

(** ** The allocator *)

Lemma rejected_iff (s : XIPCompressor) (b : byte) :
  dict_mem Byte.eqb b (lookup_table s) || bytes_mem b (raw_file_data s) = false
  <-> admissible s b.
Proof.
  unfold admissible. rewrite orb_false_iff.
  rewrite <- dict_mem_In, <- bytes_mem_In.
  destruct (dict_mem _ _ _), (bytes_mem _ _); intuition congruence.
Qed.

Section Allocator.
Variable randbytes : nat -> byte.

Lemma get_replacement_eq depth s k :
  get_replacement randbytes depth s k
  = if (Z.of_nat (length (lookup_table s))
        =? 256 - Z.of_nat (unique_byte_count (raw_file_data s)))%Z
    then (Raise TableExhausted, k)
    else
      if dict_mem Byte.eqb (randbytes k) (lookup_table s)
         || bytes_mem (randbytes k) (raw_file_data s)
      then
        match depth with
        | 0 => (Raise RecursionError, S k)
        | S depth' => get_replacement randbytes depth' s (S k)
        end
      else (Ok (randbytes k), S k).
Proof. destruct depth; reflexivity. Qed.

Lemma get_replacement_Ok depth s k r k' :
  get_replacement randbytes depth s k = (Ok r, k') -> admissible s r.
Proof.
  revert k. induction depth as [|d IH]; intros k;
    rewrite get_replacement_eq;
    destruct (_ =? _)%Z; try discriminate;
    destruct (dict_mem _ _ _ || bytes_mem _ _) eqn:E;
    try discriminate; eauto;
    intros H; injection H as <- _; now apply rejected_iff.
Qed.

Lemma get_replacement_exhausted depth s k :
  exhausted s ->
  get_replacement randbytes depth s k = (Raise TableExhausted, k).
Proof.
  unfold exhausted. intros H. apply Z.eqb_eq in H.
  rewrite get_replacement_eq. now rewrite H.
Qed.

Lemma get_replacement_not_exhausted depth s k k' :
  ~ exhausted s ->
  get_replacement randbytes depth s k <> (Raise TableExhausted, k').
Proof.
  unfold exhausted. intros H. apply Z.eqb_neq in H.
  revert k. induction depth as [|d IH]; intros k;
    rewrite get_replacement_eq, H;
    destruct (dict_mem _ _ _ || bytes_mem _ _); try discriminate.
  apply IH.
Qed.

(** A draw that is admissible is returned as it is. *)
Lemma get_replacement_first depth s k :
  ~ exhausted s -> admissible s (randbytes k) ->
  get_replacement randbytes depth s k = (Ok (randbytes k), S k).
Proof.
  unfold exhausted. intros H Ha. apply Z.eqb_neq in H.
  apply rejected_iff in Ha.
  rewrite get_replacement_eq, H, Ha. reflexivity.
Qed.

(** The cursor only moves forward. *)
Lemma get_replacement_cursor depth s k r k' :
  get_replacement randbytes depth s k = (r, k') -> k <= k'.
Proof.
  revert k. induction depth as [|d IH]; intros k;
    rewrite get_replacement_eq;
    destruct (_ =? _)%Z; try (intros [= _ <-]; lia);
    destruct (dict_mem _ _ _ || bytes_mem _ _);
    try (intros [= _ <-]; lia).
  intros H. apply IH in H. lia.
Qed.
End Allocator.

(** ** Pair frequencies *)

Lemma first_seen_In (l : list pair) (p : pair) :
  In p (first_seen l) <-> In p l.
Proof.
  induction l as [|x t IH]; simpl; [tauto|].
  rewrite filter_In, IH, negb_true_iff, pair_eqb_neq.
  destruct (pair_eq_dec x p); intuition congruence.
Qed.

Lemma first_seen_NoDup (l : list pair) : NoDup (first_seen l).
Proof.
  induction l as [|x t IH]; simpl; constructor.
  - rewrite filter_In, negb_true_iff, pair_eqb_neq. tauto.
  - now apply NoDup_filter.
Qed.

Lemma first_seen_snoc (l : list pair) (p : pair) :
  first_seen (l ++ [p])
  = if in_dec pair_eq_dec p l then first_seen l else first_seen l ++ [p].
Proof.
  induction l as [|x t IH]; simpl; [reflexivity|].
  rewrite IH. destruct (in_dec pair_eq_dec p t) as [Hin|Hin].
  - destruct (pair_eq_dec x p); reflexivity.
  - rewrite filter_app. simpl. destruct (pair_eq_dec x p) as [->|Hne].
    + rewrite pair_eqb_refl. simpl. now rewrite app_nil_r.
    + apply pair_eqb_neq in Hne. rewrite Hne. simpl.
      destruct (in_dec pair_eq_dec p t); [contradiction | reflexivity].
Qed.

Lemma occurrences_snoc (l : list pair) (p q : pair) :
  occurrences q (l ++ [p])
  = occurrences q l + (if pair_eq_dec p q then 1 else 0).
Proof.
  unfold occurrences. rewrite count_occ_app. simpl.
  destruct (pair_eq_dec p q); reflexivity.
Qed.

Lemma dict_set_map (g : pair -> nat) (p : pair) (v : nat) (ks : list pair) :
  NoDup ks -> In p ks ->
  dict_set pair_eqb p v (map (fun q => (q, g q)) ks)
  = map (fun q => (q, if pair_eq_dec p q then v else g q)) ks.
Proof.
  induction ks as [|k t IH]; simpl; [tauto|].
  intros Hnd Hin. inversion Hnd as [|? ? Hk Ht]; subst.
  destruct (pair_eqb k p) eqn:E.
  - apply pair_eqb_eq in E. subst k.
    destruct (pair_eq_dec p p); [|congruence]. f_equal.
    apply map_ext_in. intros q Hq.
    destruct (pair_eq_dec p q); [subst; contradiction | reflexivity].
  - apply pair_eqb_neq in E.
    destruct (pair_eq_dec p k); [congruence|]. f_equal.
    destruct Hin; [congruence|]. now apply IH.
Qed.

Lemma dict_get_map (g : pair -> nat) (p : pair) (ks : list pair) :
  dict_get pair_eqb p (map (fun q => (q, g q)) ks)
  = if in_dec pair_eq_dec p ks then Some (g p) else None.
Proof.
  induction ks as [|k t IH]; simpl; [reflexivity|].
  destruct (pair_eqb k p) eqn:E.
  - apply pair_eqb_eq in E. subst.
    destruct (pair_eq_dec p p); [reflexivity | congruence].
  - apply pair_eqb_neq in E. rewrite IH.
    destruct (pair_eq_dec k p); [congruence|].
    destruct (in_dec pair_eq_dec p t); reflexivity.
Qed.

(** The frequency table lists the distinct pairs in the order of their
    first occurrence, each with the number of its occurrences. *)
Lemma fold_count_pair (l : list pair) :
  fold_left count_pair l []
  = map (fun q => (q, occurrences q l)) (first_seen l).
Proof.
  induction l as [|p l IH] using rev_ind; [reflexivity|].
  rewrite fold_left_app. simpl. rewrite IH. unfold count_pair.
  rewrite dict_get_map, first_seen_snoc.
  destruct (in_dec pair_eq_dec p (first_seen l)) as [Hin|Hin];
    destruct (in_dec pair_eq_dec p l) as [Hin'|Hin'];
    try (rewrite first_seen_In in Hin; contradiction).
  - rewrite dict_set_map by (auto using first_seen_NoDup).
    apply map_ext. intros q. rewrite occurrences_snoc.
    destruct (pair_eq_dec p q); [subst; reflexivity | now rewrite Nat.add_0_r].
  - rewrite dict_set_fresh.
    + rewrite map_app. simpl. f_equal.
      * apply map_ext_in. intros q Hq. rewrite occurrences_snoc.
        destruct (pair_eq_dec p q); [subst; contradiction | now rewrite Nat.add_0_r].
      * rewrite occurrences_snoc. unfold occurrences.
        rewrite (proj1 (count_occ_not_In pair_eq_dec l p) Hin').
        destruct (pair_eq_dec p p); [reflexivity | congruence].
    + apply pair_eqb_eq.
    + unfold dict_keys. rewrite map_map. simpl. now rewrite map_id.
Qed.

Lemma pair_frequencies_spec (data : bytes) :
  pair_frequencies data
  = map (fun q => (q, occurrences q (adjacent_pairs data)))
      (first_seen (adjacent_pairs data)).
Proof. apply fold_count_pair. Qed.

(** ** The most frequent pair *)

Lemma fold_max_step_bound (l : list (pair * nat)) acc f :
  snd acc <= f -> Forall (fun it => snd it <= f) l ->
  snd (fold_left max_step l acc) <= f.
Proof.
  revert acc. induction l as [|[q g] t IH]; intros acc Ha Hl; simpl; [assumption|].
  inversion Hl as [|? ? Hg Ht]; subst. simpl in Hg.
  apply IH; [|assumption].
  destruct (Nat.leb_spec (snd acc) g); simpl; lia.
Qed.

Lemma fold_max_step_keep (l : list (pair * nat)) acc :
  Forall (fun it => snd it < snd acc) l -> fold_left max_step l acc = acc.
Proof.
  induction l as [|[q g] t IH]; intros Hl; simpl; [reflexivity|].
  inversion Hl as [|? ? Hg Ht]; subst. simpl in Hg.
  destruct (Nat.leb_spec (snd acc) g); [lia|]. now apply IH.
Qed.

Lemma max_pair_last_maximum (items : list (pair * nat)) p f :
  last_maximum items p f -> max_pair items = Ok (p, f).
Proof.
  intros (l1 & l2 & -> & H1 & H2). unfold max_pair.
  rewrite fold_left_app. simpl.
  pose proof (@fold_max_step_bound l1 (None, 0) f (Nat.le_0_l _) H1) as Hb.
  destruct (Nat.leb_spec (snd (fold_left max_step l1 (None, 0))) f); [|lia].
  now rewrite fold_max_step_keep.
Qed.

Lemma last_maximum_exists (items : list (pair * nat)) :
  items <> [] -> exists p f, last_maximum items p f.
Proof.
  induction items as [|[q g] t IH]; [congruence|]. intros _.
  destruct t as [|y t'].
  - exists q, g, [], []. repeat split; constructor.
  - destruct IH as (p & f & l1 & l2 & E & H1 & H2); [discriminate|].
    destruct (Nat.le_gt_cases g f) as [Hle|Hgt].
    + exists p, f, ((q, g) :: l1), l2. rewrite E. repeat split; auto.
    + exists q, g, [], (y :: t'). repeat split; [constructor|].
      rewrite E. apply Forall_app. split.
      * eapply Forall_impl; [|exact H1]. simpl. intros; lia.
      * constructor; [simpl; lia|].
        eapply Forall_impl; [|exact H2]. simpl. intros; lia.
Qed.

Lemma max_pair_Ok_iff (items : list (pair * nat)) p f :
  max_pair items = Ok (p, f) <-> last_maximum items p f.
Proof.
  split; [|apply max_pair_last_maximum].
  intros H. destruct items as [|x t]; [discriminate|].
  destruct (@last_maximum_exists (x :: t)) as (p' & f' & Hm); [discriminate|].
  pose proof (max_pair_last_maximum Hm) as H'.
  rewrite H in H'. now injection H' as -> ->.
Qed.

Lemma max_pair_nil : max_pair [] = Raise UnboundLocalError.
Proof. reflexivity. Qed.

(** ** Substitution *)

Lemma bytes_ind2 (P : list byte -> Prop) :
  P [] -> (forall a, P [a]) ->
  (forall a b rest, P rest -> P (b :: rest) -> P (a :: b :: rest)) ->
  forall data : list byte, P data.
Proof.
  intros H0 H1 H2 data.
  assert (P data /\ forall a, P (a :: data)) as [H _]; [|exact H].
  induction data as [|b rest [IH1 IH2]]; split; auto.
Qed.

Lemma replace_cons2 old new a b rest :
  replace old new (a :: b :: rest)
  = if pair_eqb (a, b) old then new :: replace old new rest
    else a :: replace old new (b :: rest).
Proof. reflexivity. Qed.

Lemma replace_In old new data x :
  In x (replace old new data) -> x = new \/ In x data.
Proof.
  induction data as [| a | a b rest IH1 IH2] using bytes_ind2.
  - simpl. tauto.
  - simpl. tauto.
  - rewrite replace_cons2. destruct (pair_eqb (a, b) old); simpl.
    + intros [<-|H]; [now left|]. apply IH1 in H. simpl. tauto.
    + intros [<-|H]; [now right; left|]. apply IH2 in H. simpl in H. simpl. tauto.
Qed.

Lemma replace_length old new data :
  length data <= 2 * length (replace old new data).
Proof.
  induction data as [| a | a b rest IH1 IH2] using bytes_ind2.
  - simpl. lia.
  - simpl. lia.
  - rewrite replace_cons2. destruct (pair_eqb (a, b) old); simpl in *; lia.
Qed.

Lemma adjacent_pairs_cons2 a b rest :
  adjacent_pairs (a :: b :: rest) = (a, b) :: adjacent_pairs (b :: rest).
Proof. reflexivity. Qed.

Lemma adjacent_pairs_In data a b :
  In (a, b) (adjacent_pairs data) -> In a data /\ In b data.
Proof.
  induction data as [| x | x y rest IH1 IH2] using bytes_ind2.
  - simpl. tauto.
  - simpl. tauto.
  - rewrite adjacent_pairs_cons2. intros [[= -> ->]|H].
    + simpl. tauto.
    + apply IH2 in H. simpl in *. tauto.
Qed.

Lemma adjacent_pairs_length data :
  length (adjacent_pairs data) = length data - 1.
Proof.
  induction data as [| x | x y rest IH1 IH2] using bytes_ind2.
  - reflexivity.
  - reflexivity.
  - rewrite adjacent_pairs_cons2. simpl in *. lia.
Qed.

Lemma occurrences_le p l : occurrences p l <= length l.
Proof. apply count_occ_bound. Qed.

(** What [__max_pair] returns on a frequency table: a pair of the data and
    the number of its occurrences. *)
Lemma max_pair_frequencies data p f :
  max_pair (pair_frequencies data) = Ok (p, f) ->
  In p (adjacent_pairs data) /\ f = occurrences p (adjacent_pairs data).
Proof.
  intros H. apply max_pair_Ok_iff in H. destruct H as (l1 & l2 & E & _).
  assert (In (p, f) (pair_frequencies data)) as Hin
    by (rewrite E; apply in_elt).
  rewrite pair_frequencies_spec in Hin. apply in_map_iff in Hin.
  destruct Hin as (q & Hq' & Hq). injection Hq' as -> <-.
  split; [now apply first_seen_In | reflexivity].
Qed.

Lemma max_pair_raise data e :
  max_pair (pair_frequencies data) = Raise e ->
  e = UnboundLocalError /\ length data <= 1.
Proof.
  intros H. destruct (pair_frequencies data) as [|x t] eqn:E.
  - split; [unfold max_pair in H; simpl in H; congruence|].
    rewrite pair_frequencies_spec in E. apply map_eq_nil in E.
    destruct (adjacent_pairs data) as [|q l] eqn:Ea; [|discriminate].
    apply (f_equal (@length _)) in Ea. rewrite adjacent_pairs_length in Ea.
    simpl in Ea. lia.
  - destruct (@last_maximum_exists (x :: t)) as (p & f & Hm); [discriminate|].
    apply max_pair_last_maximum in Hm. congruence.
Qed.

(** ** Expansion by the table, newest entry first *)

Lemma replace_decode rt r a b data :
  ~ In r data ->
  flat_map (decode ((r, (a, b)) :: rt)) (replace (a, b) r data)
  = flat_map (decode rt) data.
Proof.
  induction data as [| x | x y rest IH1 IH2] using bytes_ind2; intros Hr.
  - reflexivity.
  - simpl in *. destruct (Byte.eqb r x) eqn:E; [|reflexivity].
    apply byte_eqb_eq in E. subst. tauto.
  - rewrite replace_cons2. destruct (pair_eqb (x, y) (a, b)) eqn:E.
    + apply pair_eqb_eq in E. injection E as -> ->.
      change (flat_map ?f (?h :: ?t)) with (f h ++ flat_map f t).
      rewrite IH1 by (simpl in Hr; tauto).
      cbn [decode]. rewrite byte_eqb_refl.
      rewrite <- app_assoc. reflexivity.
    + change (flat_map ?f (?h :: ?t)) with (f h ++ flat_map f t).
      rewrite IH2 by (simpl in Hr; simpl; tauto).
      cbn [decode]. destruct (Byte.eqb r x) eqn:E'.
      * apply byte_eqb_eq in E'. subst. simpl in Hr. tauto.
      * reflexivity.
Qed.

Lemma wf_table_NoDup raw rt : wf_table raw rt -> NoDup (dict_keys rt).
Proof. induction 1; simpl; constructor; assumption. Qed.

Lemma wf_table_fresh raw rt k :
  wf_table raw rt -> In k (dict_keys rt) -> ~ In k raw.
Proof.
  induction 1 as [|key c0 c1 older H1 H2 H3 H4 H5 IH]; simpl; [tauto|].
  intros [<-|H]; auto.
Qed.

Lemma wf_table_app raw rt1 rt2 : wf_table raw (rt1 ++ rt2) -> wf_table raw rt2.
Proof.
  induction rt1 as [|x t IH]; simpl; [auto|].
  intros H. inversion H; subst. auto.
Qed.

Lemma dict_keys_rev (t : table) : dict_keys (rev t) = rev (dict_keys t).
Proof. apply map_rev. Qed.

Lemma In_keys_rev (t : table) k :
  In k (dict_keys (rev t)) <-> In k (dict_keys t).
Proof. rewrite dict_keys_rev. symmetry. apply in_rev. Qed.

Section Expansion.

Lemma get_original_eq depth b t :
  get_original depth b t
  = match dict_get Byte.eqb b t with
    | Some (c0, c1) =>
        match depth with
        | 0 => Raise RecursionError
        | S depth' =>
            b1 <- get_original depth' c0 t ;;
            b2 <- get_original depth' c1 t ;;
            Ok (b1 ++ b2)
        end
    | None => Ok [b]
    end.
Proof. destruct depth; reflexivity. Qed.

(** On a table built by the encoder, [__get_original] computes [decode]
    as soon as the recursion limit covers the size of the table. *)
Lemma get_original_prefix raw (t1 t2 : table) :
  wf_table raw (rev (t1 ++ t2)) ->
  forall depth b,
    length t1 <= depth ->
    In b raw \/ In b (dict_keys t1) ->
    get_original depth b (t1 ++ t2) = Ok (decode (rev t1) b).
Proof.
  revert t2. induction t1 as [|[k [c0 c1]] t1 IH] using rev_ind;
    intros t2 Hwf depth b Hd Hb.
  - destruct Hb as [Hb|[]]. rewrite get_original_eq.
    assert (dict_get Byte.eqb b ([] ++ t2) = None) as ->; [|reflexivity].
    apply (dict_get_None Byte.eqb byte_eqb_eq). intros Hk.
    apply In_keys_rev in Hk.
    exact (@wf_table_fresh raw _ b Hwf Hk Hb).
  - rewrite <- app_assoc in *. simpl in Hwf |- *.
    pose proof Hwf as Hwf'. rewrite rev_app_distr in Hwf'. simpl in Hwf'.
    rewrite <- app_assoc in Hwf'. apply wf_table_app in Hwf'. simpl in Hwf'.
    inversion Hwf' as [|? ? ? ? Hk1 Hk2 Hc0 Hc1 Hold]; subst.
    rewrite rev_app_distr. simpl.
    rewrite length_app in Hd. simpl in Hd.
    destruct (Byte.eqb k b) eqn:E.
    + apply byte_eqb_eq in E. subst b.
      rewrite get_original_eq.
      match goal with
      | |- context [dict_get ?e ?x ?d] =>
          assert (dict_get e x d = Some (c0, c1)) as ->
      end.
      { apply (dict_get_NoDup Byte.eqb byte_eqb_eq).
        - apply wf_table_NoDup in Hwf. rewrite dict_keys_rev in Hwf.
          apply NoDup_rev in Hwf. now rewrite rev_involutive in Hwf.
        - apply in_elt. }
      destruct depth as [|d]; [lia|].
      rewrite !(IH ((k, (c0, c1)) :: t2) Hwf d) by
        (try lia; rewrite <- In_keys_rev; assumption).
      reflexivity.
    + apply IH; [assumption | lia |].
      destruct Hb as [Hb|Hb]; [now left|right].
      rewrite dict_keys_app in Hb. apply in_app_or in Hb.
      destruct Hb as [Hb|[Hb|[]]]; [assumption|].
      simpl in Hb. subst. rewrite byte_eqb_refl in E. discriminate.
Qed.

Lemma get_original_decode raw (t : table) depth b :
  wf_table raw (rev t) -> length t <= depth ->
  In b raw \/ In b (dict_keys t) ->
  get_original depth b t = Ok (decode (rev t) b).
Proof.
  intros Hwf Hd Hb.
  pose proof (@get_original_prefix raw t []) as H.
  rewrite app_nil_r in H. now apply H.
Qed.

End Expansion.

(** ** The octet space *)

Lemma ascending_to_nat (b : byte) : ascending (Byte.to_nat b) = b.
Proof.
  unfold ascending. pose proof (Byte.to_nat_bounded b).
  rewrite Nat.mod_small by lia. now rewrite Byte.of_to_nat.
Qed.

Lemma all_bytes_In (b : byte) : In b all_bytes.
Proof.
  unfold all_bytes. apply in_map_iff. exists (Byte.to_nat b). split.
  - apply ascending_to_nat.
  - apply in_seq. pose proof (Byte.to_nat_bounded b). lia.
Qed.

Lemma unique_byte_count_le (data : bytes) : unique_byte_count data <= 256.
Proof.
  unfold unique_byte_count.
  change 256 with (length all_bytes).
  apply NoDup_incl_length; [apply NoDup_nodup|].
  intros b _. apply all_bytes_In.
Qed.

Lemma unique_byte_count_pos (data : bytes) :
  data <> [] -> 1 <= unique_byte_count data.
Proof.
  destruct data as [|b t]; [congruence|]. intros _.
  unfold unique_byte_count.
  assert (In b (nodup Byte.byte_eq_dec (b :: t))) as H
    by (apply nodup_In; now left).
  destruct (nodup Byte.byte_eq_dec (b :: t)); [destruct H | simpl; lia].
Qed.

(** ** The encoder loop *)

Section Encoder.
Variable randbytes : nat -> byte.
Variable recursion_limit : nat.

Abbreviation allocate := (get_replacement randbytes recursion_limit).
Abbreviation body := (loop_body randbytes recursion_limit).
Abbreviation loop := (compress_loop randbytes recursion_limit).

Lemma loop_body_Next st st' :
  body st = Next st' <->
  exists r k' p f,
    allocate (self st) (cursor st) = (Ok r, k')
    /\ max_pair (pair_frequencies (compressed_data st)) = Ok (p, f)
    /\ st' = {| self := set_table (self st)
                          (dict_set Byte.eqb r p (lookup_table (self st)));
                compressed_data := replace p r (compressed_data st);
                last_pair_frequency := f;
                cursor := k' |}.
Proof.
  unfold loop_body.
  destruct (allocate (self st) (cursor st)) as [[r|e] k'].
  - destruct (max_pair _) as [[p f]|e].
    + split.
      * intros [= <-]. now exists r, k', p, f.
      * intros (r' & k'' & p' & f' & [= -> ->] & [= -> ->] & ->). reflexivity.
    + split; [discriminate|].
      intros (r' & k'' & p' & f' & _ & H & _). discriminate.
  - split; [discriminate|].
    intros (r' & k'' & p' & f' & H & _). discriminate.
Qed.

Lemma loop_body_Break st k' :
  body st = Break k' <->
  exists e, allocate (self st) (cursor st) = (Raise e, k').
Proof.
  unfold loop_body.
  destruct (allocate (self st) (cursor st)) as [[r|e] k''].
  - destruct (max_pair _) as [[p f]|e]; (split; [discriminate|]);
      intros (e' & H); discriminate.
  - split.
    + intros [= <-]. now exists e.
    + intros (e' & [= -> ->]). reflexivity.
Qed.

Lemma loop_body_Crash st e :
  body st = Crash e <->
  exists r k',
    allocate (self st) (cursor st) = (Ok r, k')
    /\ max_pair (pair_frequencies (compressed_data st)) = Raise e.
Proof.
  unfold loop_body.
  destruct (allocate (self st) (cursor st)) as [[r|e'] k'].
  - destruct (max_pair _) as [[p f]|e'].
    + split; [discriminate|]. intros (r' & k'' & _ & H). discriminate.
    + split.
      * intros [= <-]. now exists r, k'.
      * intros (r' & k'' & _ & [= ->]). reflexivity.
  - split; [discriminate|]. intros (r' & k'' & H & _). discriminate.
Qed.

Lemma compress_loop_eq fuel st :
  loop fuel st
  = if last_pair_frequency st =? 1 then Some (Ok st)
    else
      match fuel with
      | 0 => None
      | S fuel' =>
          match body st with
          | Next st' => loop fuel' st'
          | Break k' =>
              Some (Ok {| self := self st;
                          compressed_data := compressed_data st;
                          last_pair_frequency := last_pair_frequency st;
                          cursor := k' |})
          | Crash e => Some (Raise e)
          end
      end.
Proof. destruct fuel; reflexivity. Qed.

Lemma buffer_inv_fresh st r k' :
  buffer_inv st ->
  allocate (self st) (cursor st) = (Ok r, k') ->
  ~ In r (compressed_data st).
Proof.
  intros Hb Ha Hin. apply get_replacement_Ok in Ha. destruct Ha as [H1 H2].
  destruct (Hb r Hin); contradiction.
Qed.

Lemma buffer_inv_enter s0 raw k : buffer_inv (enter s0 raw k).
Proof. intros b Hb. now left. Qed.

Lemma buffer_inv_step st st' :
  buffer_inv st -> body st = Next st' -> buffer_inv st'.
Proof.
  intros Hb H. apply loop_body_Next in H.
  destruct H as (r & k' & p & f & Ha & _ & ->).
  apply get_replacement_Ok in Ha. destruct Ha as [H1 _].
  intros b Hin. simpl in *.
  rewrite (dict_set_fresh Byte.eqb byte_eqb_eq) by assumption.
  rewrite dict_keys_app, in_app_iff. simpl.
  apply replace_In in Hin. destruct Hin as [->|Hin]; [tauto|].
  destruct (Hb b Hin); tauto.
Qed.

Lemma buffer_inv_reachable s0 raw k n st :
  reachable randbytes recursion_limit s0 raw k n st -> buffer_inv st.
Proof.
  induction 1; eauto using buffer_inv_enter, buffer_inv_step.
Qed.

(** *** The invariant of a call on a new object *)

Lemma flat_map_decode_nil (data : bytes) : flat_map (decode []) data = data.
Proof.
  induction data as [|a t IH]; [reflexivity|].
  change (flat_map (decode []) (a :: t))
    with (a :: flat_map (decode []) t).
  now rewrite IH.
Qed.

Lemma encoder_inv_enter s0 raw k :
  lookup_table s0 = [] -> 2 <= length raw ->
  encoder_inv raw (enter s0 raw k).
Proof.
  intros Ht Hl.
  split; unfold enter;
    cbn [self lookup_table raw_file_data compressed_data
         last_pair_frequency];
    try rewrite Ht; cbn [rev length].
  - reflexivity.
  - constructor.
  - intros b Hb. now left.
  - apply flat_map_decode_nil.
  - pose proof (unique_byte_count_le raw). lia.
  - auto.
Qed.

Lemma encoder_inv_cursor raw st k' :
  encoder_inv raw st ->
  encoder_inv raw {| self := self st;
                     compressed_data := compressed_data st;
                     last_pair_frequency := last_pair_frequency st;
                     cursor := k' |}.
Proof. intros [H1 H2 H3 H4 H5 H6]. split; assumption. Qed.

Lemma allocate_not_exhausted s k r k' :
  allocate s k = (Ok r, k') -> ~ exhausted s.
Proof.
  intros H He.
  rewrite (get_replacement_exhausted randbytes recursion_limit k He) in H.
  discriminate.
Qed.

Lemma encoder_inv_step raw st st' :
  encoder_inv raw st -> body st = Next st' ->
  encoder_inv raw st'
  /\ length (lookup_table (self st')) = S (length (lookup_table (self st))).
Proof.
  intros [H1 H2 H3 H4 H5 H6] H.
  assert (buffer_inv st') as Hbuf by (eapply buffer_inv_step; eauto).
  apply loop_body_Next in H.
  destruct H as (r & k' & [a b] & f & Ha & Hm & ->).
  assert (~ In r (compressed_data st)) as Hfresh
    by (eapply buffer_inv_fresh; eauto).
  assert (~ exhausted (self st)) as Hne
    by (eapply allocate_not_exhausted; eauto).
  apply get_replacement_Ok in Ha. destruct Ha as [Hk Hr].
  apply max_pair_frequencies in Hm. destruct Hm as [Hp Hf].
  destruct (adjacent_pairs_In _ _ _ Hp) as [Hina Hinb].
  unfold exhausted in Hne. rewrite H1 in Hne, Hr.
  assert (forall c, In c (compressed_data st) ->
                    In c raw \/ In c (dict_keys (rev (lookup_table (self st)))))
    as Hcomp.
  { intros c Hc. rewrite In_keys_rev, <- H1. auto. }
  cbn [self lookup_table raw_file_data compressed_data
       last_pair_frequency cursor set_table] in Hbuf.
  rewrite (dict_set_fresh Byte.eqb byte_eqb_eq) in Hbuf by assumption.
  split; [split|];
    cbn [self lookup_table raw_file_data compressed_data
         last_pair_frequency cursor set_table];
    rewrite ?(dict_set_fresh Byte.eqb byte_eqb_eq) by assumption;
    rewrite ?rev_app_distr, ?length_app; cbn [rev app length].
  - assumption.
  - constructor; auto. now rewrite In_keys_rev.
  - assumption.
  - now rewrite replace_decode.
  - lia.
  - intros Hf1. subst f.
    pose proof (occurrences_le (a, b) (adjacent_pairs (compressed_data st)))
      as Hle.
    rewrite adjacent_pairs_length in Hle.
    assert (1 <= occurrences (a, b) (adjacent_pairs (compressed_data st))).
    { unfold occurrences. apply count_occ_In. assumption. }
    pose proof (replace_length (a, b) r (compressed_data st)). lia.
  - lia.
Qed.

(** The loop ends within 256 turns, in a state that satisfies the
    invariant, and never by an exception. *)
Lemma compress_loop_inv raw fuel st :
  encoder_inv raw st ->
  (256 - Z.of_nat (unique_byte_count raw)
   - Z.of_nat (length (lookup_table (self st))) < Z.of_nat fuel)%Z ->
  exists st', loop fuel st = Some (Ok st') /\ encoder_inv raw st'.
Proof.
  revert st. induction fuel as [|fuel IH]; intros st Hinv Hfuel;
    rewrite compress_loop_eq;
    destruct (Nat.eqb_spec (last_pair_frequency st) 1) as [E|E];
    try (now exists st).
  - pose proof (inv_size Hinv). lia.
  - destruct (body st) as [st'|k'|e] eqn:Hb.
    + destruct (encoder_inv_step Hinv Hb) as [Hinv' Hlen].
      apply IH; [assumption|]. rewrite Hlen. lia.
    + eexists. split; [reflexivity|]. now apply encoder_inv_cursor.
    + apply loop_body_Crash in Hb. destruct Hb as (r & k' & _ & Hm).
      apply max_pair_raise in Hm. pose proof (inv_len Hinv E). lia.
Qed.

End Encoder.

(** ** The decoder *)

Lemma trailer_length (t : table) : length (trailer t) = 3 * length t.
Proof.
  induction t as [|[k [c0 c1]] t IH]; [reflexivity|].
  change (trailer ((k, (c0, c1)) :: t)) with (k :: c0 :: c1 :: trailer t).
  simpl length. lia.
Qed.

Lemma records_trailer (t : table) (tl : bytes) :
  records (length t) (trailer t ++ tl) = t.
Proof.
  induction t as [|[k [c0 c1]] t IH]; [reflexivity|].
  change (trailer ((k, (c0, c1)) :: t)) with (k :: c0 :: c1 :: trailer t).
  simpl. now rewrite IH.
Qed.

Lemma records_length n chunk :
  3 * n <= length chunk -> length (records n chunk) = n.
Proof.
  revert chunk. induction n as [|n IH]; intros chunk H; [reflexivity|].
  destruct chunk as [|k [|c0 [|c1 tl]]]; simpl in H; try lia.
  simpl. rewrite IH; [reflexivity | lia].
Qed.

Lemma fold_set_record_fresh (rs acc : table) :
  NoDup (dict_keys (acc ++ rs)) -> fold_left set_record rs acc = acc ++ rs.
Proof.
  revert acc. induction rs as [|[k v] rs IH]; intros acc H; simpl.
  - now rewrite app_nil_r.
  - unfold set_record at 2. simpl.
    rewrite (dict_set_fresh Byte.eqb byte_eqb_eq).
    + rewrite IH; rewrite <- app_assoc; [reflexivity | assumption].
    + rewrite dict_keys_app in H. simpl in H.
      apply NoDup_remove_2 in H. rewrite in_app_iff in H. tauto.
Qed.

Lemma dict_of_NoDup (rs : table) : NoDup (dict_keys rs) -> dict_of rs = rs.
Proof. intros H. unfold dict_of. now rewrite fold_set_record_fresh. Qed.

Lemma getitem_skipn data n i :
  getitem data (n + i) = getitem (skipn n data) i.
Proof. unfold getitem. now rewrite nth_error_skipn. Qed.

Lemma reconstruct_loop_cons chunk i range' t :
  reconstruct_loop chunk (i :: range') t
  = (c0 <- getitem chunk (i + 1) ;;
     c1 <- getitem chunk (i + 2) ;;
     key <- getitem chunk i ;;
     reconstruct_loop chunk range' (dict_set Byte.eqb key (c0, c1) t)).
Proof. reflexivity. Qed.

Lemma range3_shift j n :
  map (fun i => 3 * i) (seq j (S n))
  = 3 * j :: map (fun i => 3 * i) (seq (S j) n).
Proof. reflexivity. Qed.

(** With enough octets in the chunk the parsing loop reads [n] records and
    raises nothing. *)
Lemma reconstruct_loop_records chunk n :
  forall j acc,
    3 * (j + n) <= length chunk ->
    reconstruct_loop chunk (map (fun i => 3 * i) (seq j n)) acc
    = Ok (fold_left set_record (records n (skipn (3 * j) chunk)) acc).
Proof.
  induction n as [|n IH]; intros j acc H; [reflexivity|].
  rewrite range3_shift, reconstruct_loop_cons.
  pose proof (getitem_skipn chunk (3 * j) 0) as G0.
  pose proof (getitem_skipn chunk (3 * j) 1) as G1.
  pose proof (getitem_skipn chunk (3 * j) 2) as G2.
  rewrite Nat.add_0_r in G0.
  pose proof (length_skipn (3 * j) chunk) as Hl.
  destruct (skipn (3 * j) chunk) as [|k [|c0 [|c1 tl]]] eqn:E;
    simpl in Hl; try lia.
  rewrite G1. cbn [getitem nth_error bind].
  rewrite G2. cbn [getitem nth_error bind].
  rewrite G0. cbn [getitem nth_error bind].
  rewrite IH by lia.
  replace (3 * S j) with (3 + 3 * j) by lia.
  rewrite <- skipn_skipn, E. reflexivity.
Qed.

(** With too few octets it raises [IndexError]. *)
Lemma reconstruct_loop_short chunk n :
  forall j acc,
    0 < n -> length chunk < 3 * (j + n) ->
    reconstruct_loop chunk (map (fun i => 3 * i) (seq j n)) acc
    = Raise IndexError.
Proof.
  induction n as [|n IH]; intros j acc Hn H; [lia|].
  rewrite range3_shift, reconstruct_loop_cons.
  pose proof (getitem_skipn chunk (3 * j) 0) as G0.
  pose proof (getitem_skipn chunk (3 * j) 1) as G1.
  pose proof (getitem_skipn chunk (3 * j) 2) as G2.
  rewrite Nat.add_0_r in G0.
  pose proof (length_skipn (3 * j) chunk) as Hl.
  destruct (skipn (3 * j) chunk) as [|k [|c0 [|c1 tl]]] eqn:E;
    rewrite G1; cbn [getitem nth_error bind]; try reflexivity;
    rewrite G2; cbn [getitem nth_error bind]; try reflexivity.
  rewrite G0. cbn [getitem nth_error bind].
  simpl in Hl. apply IH; lia.
Qed.

Lemma slice_from_neg (data : bytes) n :
  0 < n ->
  slice_from (-3 * Z.of_nat n) data = skipn (length data - 3 * n) data.
Proof.
  intros Hn. unfold slice_from.
  destruct (Z.ltb_spec (-3 * Z.of_nat n) 0); [|lia].
  f_equal. lia.
Qed.

Lemma reconstruct_dict_cons c rest :
  reconstruct_dict (c :: rest)
  = reconstruct_loop (slice_from (-3 * Z.of_nat (Byte.to_nat c)) (c :: rest))
      (range3 (Byte.to_nat c)) [].
Proof. reflexivity. Qed.

(** Parsing succeeds on every artifact that is not empty and has at least
    three octets for each announced entry. *)
Lemma reconstruct_dict_Ok c rest :
  3 * Byte.to_nat c <= length (c :: rest) ->
  reconstruct_dict (c :: rest)
  = Ok (dict_of (records (Byte.to_nat c)
                   (skipn (length (c :: rest) - 3 * Byte.to_nat c)
                      (c :: rest)))).
Proof.
  intros H. rewrite reconstruct_dict_cons.
  destruct (Byte.to_nat c) as [|n] eqn:En; [reflexivity|].
  rewrite slice_from_neg by lia. unfold range3.
  rewrite reconstruct_loop_records.
  - reflexivity.
  - rewrite length_skipn. lia.
Qed.

Lemma reconstruct_dict_Raise data :
  data = [] \/ length data < 3 * Byte.to_nat (hd x00 data) ->
  reconstruct_dict data = Raise IndexError.
Proof.
  intros [->|H]; [reflexivity|].
  destruct data as [|c rest]; [reflexivity|]. simpl hd in H.
  rewrite reconstruct_dict_cons.
  assert (0 < Byte.to_nat c) as Hn by lia.
  rewrite slice_from_neg by lia. unfold range3.
  apply reconstruct_loop_short; [assumption|].
  rewrite length_skipn. lia.
Qed.

Lemma decompress_loop_cons lim data t i range' acc :
  decompress_loop lim data t (i :: range') acc
  = (b <- getitem data i ;;
     o <- get_original lim b t ;;
     decompress_loop lim data t range' (acc ++ o)).
Proof. reflexivity. Qed.

(** The loop of [decompress_binary] expands a slice of its argument. *)
Lemma decompress_loop_payload lim data t m :
  forall j acc,
    j + m <= length data ->
    decompress_loop lim data t (seq j m) acc
    = (y <- expand_payload lim t (firstn m (skipn j data)) ;; Ok (acc ++ y)).
Proof.
  induction m as [|m IH]; intros j acc H.
  - simpl. now rewrite app_nil_r.
  - rewrite <- cons_seq, decompress_loop_cons.
    pose proof (getitem_skipn data j 0) as G. rewrite Nat.add_0_r in G.
    pose proof (length_skipn j data) as Hl.
    destruct (skipn j data) as [|b tl] eqn:E; simpl in Hl; [lia|].
    assert (skipn (S j) data = tl) as Hs
      by (change (S j) with (1 + j); now rewrite <- skipn_skipn, E).
    rewrite G. cbn [getitem nth_error bind firstn expand_payload].
    destruct (get_original lim b t) as [o|e]; cbn [bind]; [|reflexivity].
    rewrite IH by lia. rewrite Hs.
    destruct (expand_payload lim t (firstn m tl)) as [y|e]; cbn [bind];
      [|reflexivity].
    now rewrite app_assoc.
Qed.

(** [decompress_binary], with its index loops read as slices. *)
Lemma decompress_binary_eq lim data :
  decompress_binary lim data
  = (t <- reconstruct_dict data ;;
     expand_payload lim t
       (firstn (length data - 3 * length t - 1) (skipn 1 data))).
Proof.
  unfold decompress_binary.
  destruct data as [|c rest]; [reflexivity|].
  destruct (reconstruct_dict (c :: rest)) as [t|e]; cbn [bind]; [|reflexivity].
  replace (Z.to_nat (Z.of_nat (length (c :: rest)) - Z.of_nat (length t) * 3 - 1))
    with (length (c :: rest) - 3 * length t - 1) by lia.
  rewrite decompress_loop_payload by (cbn [length]; lia).
  destruct (expand_payload _ _ _); reflexivity.
Qed.

(** ** Expansion as the specification defines it *)

Lemma get_original_expand t depth :
  forall o out, get_original depth o t = Ok out -> expand t o out.
Proof.
  induction depth as [|d IH]; intros o out; rewrite get_original_eq;
    destruct (dict_get Byte.eqb o t) as [[c0 c1]|] eqn:E;
    try discriminate;
    try (intros [= <-]; now constructor).
  destruct (get_original d c0 t) as [b1|] eqn:E0; [|discriminate].
  destruct (get_original d c1 t) as [b2|] eqn:E1; [|discriminate].
  cbn [bind]. intros [= <-]. eapply expand_code; eauto.
Qed.

Lemma get_original_mono t depth :
  forall o out depth',
    get_original depth o t = Ok out -> depth <= depth' ->
    get_original depth' o t = Ok out.
Proof.
  induction depth as [|d IH]; intros o out d' H Hd;
    rewrite get_original_eq in H; rewrite get_original_eq;
    destruct (dict_get Byte.eqb o t) as [[c0 c1]|] eqn:E;
    try discriminate; try assumption.
  destruct d' as [|d']; [lia|].
  destruct (get_original d c0 t) as [b1|] eqn:E0; [|discriminate].
  destruct (get_original d c1 t) as [b2|] eqn:E1; [|discriminate].
  rewrite (IH c0 b1 d'), (IH c1 b2 d') by (auto; lia). assumption.
Qed.

Lemma expand_get_original t o out :
  expand t o out ->
  exists depth0, forall depth,
      depth0 <= depth -> get_original depth o t = Ok out.
Proof.
  induction 1 as [o E | o c0 c1 out0 out1 E _ [d0 IH0] _ [d1 IH1]].
  - exists 0. intros d _. rewrite get_original_eq, E. reflexivity.
  - exists (S (Nat.max d0 d1)). intros d Hd.
    destruct d as [|d]; [lia|].
    rewrite get_original_eq, E, IH0, IH1 by lia. reflexivity.
Qed.

Lemma expand_payload_sound depth t payload :
  forall out,
    expand_payload depth t payload = Ok out ->
    exists chunks, Forall2 (expand t) payload chunks /\ out = concat chunks.
Proof.
  induction payload as [|o rest IH]; intros out; simpl.
  - intros [= <-]. exists []. split; [constructor | reflexivity].
  - destruct (get_original depth o t) as [x|] eqn:E; [|discriminate].
    destruct (expand_payload depth t rest) as [y|]; [|discriminate].
    cbn [bind]. intros [= <-].
    destruct (IH y eq_refl) as (chunks & HF & ->).
    exists (x :: chunks). split; [|reflexivity].
    constructor; [|assumption]. eapply get_original_expand; eauto.
Qed.

Lemma expand_payload_complete t payload chunks :
  Forall2 (expand t) payload chunks ->
  exists depth0, forall depth,
      depth0 <= depth -> expand_payload depth t payload = Ok (concat chunks).
Proof.
  induction 1 as [|o x rest chunks Ho _ [d1 IH]].
  - exists 0. reflexivity.
  - destruct (expand_get_original Ho) as [d0 H0].
    exists (Nat.max d0 d1). intros d Hd. simpl.
    rewrite H0, IH by lia. reflexivity.
Qed.

Lemma expand_payload_decode raw t depth payload :
  wf_table raw (rev t) -> length t <= depth ->
  (forall b, In b payload -> In b raw \/ In b (dict_keys t)) ->
  expand_payload depth t payload = Ok (flat_map (decode (rev t)) payload).
Proof.
  intros Hwf Hd. induction payload as [|o rest IH]; intros Hb; [reflexivity|].
  cbn [expand_payload flat_map].
  rewrite (get_original_decode (raw := raw)), IH; auto with datatypes.
Qed.

(** ** Runs of the encoder *)

Section Run.
Variable randbytes : nat -> byte.
Variable recursion_limit : nat.

Abbreviation allocate := (get_replacement randbytes recursion_limit).
Abbreviation body := (loop_body randbytes recursion_limit).
Abbreviation loop := (compress_loop randbytes recursion_limit).
Abbreviation reach := (reachable randbytes recursion_limit).

Lemma reachable_0 s0 raw k st : reach s0 raw k 0 st -> st = enter s0 raw k.
Proof. inversion 1. reflexivity. Qed.

Lemma reachable_raw s0 raw k n st :
  reach s0 raw k n st -> raw_file_data (self st) = raw.
Proof.
  induction 1 as [|n st st' _ IH _ Hb]; [reflexivity|].
  apply loop_body_Next in Hb.
  destruct Hb as (r & k' & p & f & _ & _ & ->). exact IH.
Qed.

(** From the entry of the loop, [n] turns lead to a state reached after
    [n] turns. *)
Lemma reachable_loop s0 raw k n st :
  reach s0 raw k n st ->
  forall fuel, loop (n + fuel) (enter s0 raw k) = loop fuel st.
Proof.
  induction 1 as [|n st st' _ IH Hl Hb]; intros fuel; [reflexivity|].
  replace (S n + fuel) with (n + S fuel) by lia.
  rewrite IH, (compress_loop_eq _ _ (S fuel) st).
  apply Nat.eqb_neq in Hl. now rewrite Hl, Hb.
Qed.

Lemma compress_loop_mono fuel :
  forall st r fuel',
    loop fuel st = Some r -> fuel <= fuel' -> loop fuel' st = Some r.
Proof.
  induction fuel as [|fuel IH]; intros st r fuel' H Hle;
    rewrite compress_loop_eq in H; rewrite compress_loop_eq;
    destruct (last_pair_frequency st =? 1); try assumption;
    try discriminate.
  destruct fuel' as [|fuel']; [lia|].
  destruct (body st); try assumption. apply IH; [assumption | lia].
Qed.

Lemma reachable_keys s0 raw k n st :
  lookup_table s0 = [] -> reach s0 raw k n st -> keys_inv raw n st.
Proof.
  intros H0. induction 1 as [|n st st' Hr IH Hl Hb].
  - split; unfold enter;
      cbn [self lookup_table raw_file_data]; rewrite ?H0;
      cbn [dict_keys map length]; auto.
    + constructor.
    + pose proof (unique_byte_count_le raw). lia.
  - destruct IH as [I1 I2 I3 I4 I5 I6].
    apply loop_body_Next in Hb.
    destruct Hb as (r & k' & p & f & Ha & Hm & ->).
    assert (~ exhausted (self st)) as Hne
      by (eapply allocate_not_exhausted; eauto).
    apply get_replacement_Ok in Ha. destruct Ha as [Hk Hraw].
    unfold exhausted in Hne. rewrite I1 in Hne, Hraw.
    split;
      cbn [self lookup_table raw_file_data set_table];
      rewrite ?(dict_set_fresh Byte.eqb byte_eqb_eq) by assumption;
      rewrite ?dict_keys_app, ?length_app; cbn [dict_keys map length fst].
    + assumption.
    + apply NoDup_app; auto.
      * constructor; [simpl; tauto | constructor].
      * intros x Hx [<-|[]]. contradiction.
    + intros key Hin. apply in_app_or in Hin.
      destruct Hin as [Hin|[<-|[]]]; auto.
    + lia.
    + lia.
    + right. destruct I6 as [->|I6]; [|assumption].
      apply reachable_0 in Hr. subst st.
      apply max_pair_frequencies in Hm. destruct Hm as [Hp _].
      simpl in Hp. intros ->. destruct Hp.
Qed.

Lemma keys_inv_count raw n st :
  keys_inv raw n st -> exhausted (self st) ->
  length (lookup_table (self st)) <= 255.
Proof.
  intros [I1 I2 I3 I4 I5 I6] He. unfold exhausted in He. rewrite I1 in He.
  destruct I6 as [->|I6].
  - lia.
  - pose proof (unique_byte_count_pos I6). lia.
Qed.

Lemma to_bytes_Ok n :
  n <= 255 -> exists c, to_bytes n = Ok c /\ Byte.to_nat c = n.
Proof.
  intros H. unfold to_bytes. destruct (Byte.of_nat n) as [c|] eqn:E.
  - exists c. split; [reflexivity|]. now apply Byte.to_of_nat.
  - apply Byte.of_nat_None_iff in E. lia.
Qed.

Lemma compress_binary_eq fuel s raw k :
  compress_binary randbytes recursion_limit fuel s raw k
  = match loop fuel (enter s raw k) with
    | None => None
    | Some (Raise e) => Some (Raise e)
    | Some (Ok st) =>
        Some (compressed_output <- serialize st ;;
              Ok (compressed_output, self st, cursor st))
    end.
Proof. reflexivity. Qed.

(** The exits of the loop: either the state in which it was entered
    already had frequency 1, or an allocation failed, or a turn that
    found frequency 1 ran to its end. *)
Lemma compress_loop_exit s0 raw k fuel :
  forall n st stf,
    reach s0 raw k n st ->
    loop fuel st = Some (Ok stf) ->
    last_pair_frequency st <> 1 ->
    last_pair_frequency stf = 1 ->
    exists m st1,
      reach s0 raw k m st1
      /\ last_pair_frequency st1 <> 1
      /\ body st1 = Next stf.
Proof.
  induction fuel as [|fuel IH]; intros n st stf Hr H Hl Hf;
    rewrite compress_loop_eq in H;
    destruct (Nat.eqb_spec (last_pair_frequency st) 1) as [E|E];
    try contradiction; try discriminate.
  destruct (body st) as [st'|k'|e] eqn:Hb; try discriminate.
  - destruct (Nat.eq_dec (last_pair_frequency st') 1) as [E'|E'].
    + rewrite compress_loop_eq in H. apply Nat.eqb_eq in E'.
      rewrite E' in H. injection H as <-. now exists n, st.
    + apply (IH (S n) st' stf); auto.
      apply reach_next with (st := st); assumption.
  - injection H as <-. simpl in Hf. contradiction.
Qed.

End Run.

(** ** Decoding what the encoder wrote *)

Lemma skipn_app_length (A : Type) (l1 l2 : list A) :
  skipn (length l1) (l1 ++ l2) = l2.
Proof. induction l1; simpl; auto. Qed.

Lemma firstn_app_length (A : Type) (l1 l2 : list A) :
  firstn (length l1) (l1 ++ l2) = l1.
Proof. induction l1; simpl; congruence. Qed.

Lemma expand_payload_nil lim (payload : bytes) :
  expand_payload lim [] payload = Ok payload.
Proof.
  induction payload as [|o rest IH]; [reflexivity|].
  cbn [expand_payload]. rewrite get_original_eq, IH. reflexivity.
Qed.

Lemma decompress_no_table lim (raw : bytes) :
  decompress_binary lim (x00 :: raw) = Ok raw.
Proof.
  rewrite decompress_binary_eq, reconstruct_dict_Ok by (simpl; lia).
  cbn [Byte.to_nat records dict_of fold_left bind length skipn].
  replace (S (length raw) - 3 * 0 - 1) with (length raw) by lia.
  rewrite firstn_all. apply expand_payload_nil.
Qed.

Lemma decompress_serialized raw (t : table) (data : bytes) c lim :
  wf_table raw (rev t) ->
  Byte.to_nat c = length t ->
  length t <= lim ->
  (forall b, In b data -> In b raw \/ In b (dict_keys t)) ->
  decompress_binary lim (c :: data ++ trailer t)
  = Ok (flat_map (decode (rev t)) data).
Proof.
  intros Hwf Hc Hlim Hb.
  assert (length (c :: data ++ trailer t) = S (length data + 3 * length t))
    as Hlen by (simpl; now rewrite length_app, trailer_length).
  rewrite decompress_binary_eq, reconstruct_dict_Ok by (rewrite Hlen, Hc; lia).
  rewrite Hlen, Hc.
  replace (S (length data + 3 * length t) - 3 * length t)
    with (S (length data)) by lia.
  rewrite skipn_cons, skipn_app_length.
  rewrite <- (app_nil_r (trailer t)), records_trailer.
  assert (NoDup (dict_keys t)) as Hnd.
  { apply wf_table_NoDup in Hwf. rewrite dict_keys_rev in Hwf.
    apply NoDup_rev in Hwf. now rewrite rev_involutive in Hwf. }
  rewrite dict_of_NoDup by assumption. cbn [bind skipn].
  replace (S (length data + 3 * length t) - 3 * length t - 1)
    with (length data) by lia.
  rewrite firstn_app_length.
  now apply expand_payload_decode with (raw := raw).
Qed.

Section RoundTrip.
Variable randbytes : nat -> byte.
Variable recursion_limit : nat.

(** The encoder returns an artifact for every input of two octets or
    more, whatever the random source draws. *)
Lemma compress_binary_total fuel raw k :
  2 <= length raw -> 256 <= fuel ->
  exists st c,
    encoder_inv raw st
    /\ Byte.to_nat c = length (lookup_table (self st))
    /\ compress_binary randbytes recursion_limit fuel init raw k
       = Some (Ok (c :: compressed_data st
                     ++ trailer (lookup_table (self st)),
                   self st, cursor st)).
Proof.
  intros Hl Hf.
  assert (raw <> []) as Hne by (intros ->; simpl in Hl; lia).
  pose proof (unique_byte_count_pos Hne) as Hu.
  destruct (@compress_loop_inv randbytes recursion_limit raw fuel
              (enter init raw k)) as (st & Hloop & Hinv).
  - now apply encoder_inv_enter.
  - unfold enter, init. cbn [self lookup_table length]. lia.
  - pose proof (inv_size Hinv) as Hs.
    destruct (@to_bytes_Ok (length (lookup_table (self st))))
      as (c & Hc & Hn); [lia|].
    exists st, c. split; [assumption | split; [assumption|]].
    rewrite compress_binary_eq, Hloop. unfold serialize.
    rewrite Hc. reflexivity.
Qed.

(** X1.  Round trip on a new object: for every input of two octets or
    more and every random source, [compress_binary] returns an artifact
    from which [decompress_binary] returns the input, as soon as the
    recursion limit is 255 or more. *)
Theorem round_trip_from_two_octets fuel raw k :
  2 <= length raw -> 256 <= fuel -> 255 <= recursion_limit ->
  round_trip randbytes recursion_limit fuel raw k = Some (Ok raw).
Proof.
  intros Hl Hf Hlim.
  destruct (@compress_binary_total fuel raw k Hl Hf)
    as (st & c & Hinv & Hc & E).
  unfold round_trip. rewrite E.
  assert (raw <> []) as Hne by (intros ->; simpl in Hl; lia).
  pose proof (unique_byte_count_pos Hne) as Hu.
  pose proof (inv_size Hinv) as Hs.
  rewrite decompress_serialized with (raw := raw).
  - now rewrite (inv_dec Hinv).
  - apply (inv_wf Hinv).
  - assumption.
  - lia.
  - intros b Hb. rewrite <- (inv_raw Hinv). now apply (inv_buf Hinv).
Qed.

End RoundTrip.

(** * Properties of the specification *)

Section Claims.
Variable randbytes : nat -> byte.
Variable recursion_limit : nat.

Abbreviation allocate := (get_replacement randbytes recursion_limit).
Abbreviation body := (loop_body randbytes recursion_limit).
Abbreviation loop := (compress_loop randbytes recursion_limit).
Abbreviation reach := (reachable randbytes recursion_limit).
Abbreviation compress := (compress_binary randbytes recursion_limit).

(** C3.  Allocator contract: in every state that a call of
    [compress_binary] on a new object reaches after [n] turns, the table
    holds [n] pairwise distinct codes; a code the allocator returns there
    is neither a key of the table nor an octet of the input; and the
    allocator raises its exhaustion exception exactly when the number of
    codes in the table is 256 minus the number of distinct octets of the
    input. *)
Theorem allocator_contract raw k n st :
  reach init raw k n st ->
  NoDup (dict_keys (lookup_table (self st)))
  /\ length (lookup_table (self st)) = n
  /\ (forall r k',
         allocate (self st) (cursor st) = (Ok r, k') ->
         ~ In r (dict_keys (lookup_table (self st))) /\ ~ In r raw)
  /\ ((exists k',
          allocate (self st) (cursor st) = (Raise TableExhausted, k'))
      <-> length (lookup_table (self st)) = 256 - unique_byte_count raw).
Proof.
  intros Hr.
  assert (keys_inv raw n st) as Hk
    by (eapply reachable_keys; [|eassumption]; reflexivity).
  destruct Hk as [I1 I2 I3 I4 I5 I6].
  pose proof (unique_byte_count_le raw) as Hu.
  split; [assumption | split; [assumption | split; [|split]]].
  - intros r k' H. apply get_replacement_Ok in H. destruct H as [H1 H2].
    split; [assumption | now rewrite I1 in H2].
  - intros [k' H].
    destruct (Nat.eq_dec (length (lookup_table (self st)))
                (256 - unique_byte_count raw)) as [E|E]; [assumption|].
    exfalso. revert H. apply get_replacement_not_exhausted.
    unfold exhausted. rewrite I1. lia.
  - intros E. exists (cursor st). apply get_replacement_exhausted.
    unfold exhausted. rewrite I1. lia.
Qed.

(** C9.  Working-buffer invariant: whenever the loop condition is
    tested, every octet of the working buffer is an octet of the input
    or a key of the table; so a code that the allocator returns next
    does not occur in the buffer in which it is substituted. *)
Theorem working_buffer_invariant s0 raw k n st :
  reach s0 raw k n st ->
  (forall b, In b (compressed_data st) ->
             In b raw \/ In b (dict_keys (lookup_table (self st))))
  /\ (forall r k',
         allocate (self st) (cursor st) = (Ok r, k') ->
         ~ In r (compressed_data st)).
Proof.
  intros Hr. pose proof (buffer_inv_reachable Hr) as Hb.
  split.
  - intros b Hin. rewrite <- (reachable_raw Hr). now apply Hb.
  - intros r k' Ha. eapply buffer_inv_fresh; eauto.
Qed.

(** C4.  Atomicity of exhaustion: when the allocator raises its
    exhaustion exception in a state reached by [compress_binary] on a
    new object, the turn ends by [break] and [compress_binary] returns
    the artifact serialized from the table and the buffer of that state:
    the count octet, the buffer, the entries of the table. *)
Theorem table_exhausted_atomicity raw k n st k' :
  reach init raw k n st ->
  last_pair_frequency st <> 1 ->
  allocate (self st) (cursor st) = (Raise TableExhausted, k') ->
  body st = Break k'
  /\ exists c,
      Byte.to_nat c = length (lookup_table (self st))
      /\ forall fuel,
          256 <= fuel ->
          compress fuel init raw k
          = Some (Ok (c :: compressed_data st
                        ++ trailer (lookup_table (self st)),
                      self st, k')).
Proof.
  intros Hr Hl Ha.
  assert (body st = Break k') as Hb
    by (apply loop_body_Break; now exists TableExhausted).
  split; [assumption|].
  assert (keys_inv raw n st) as Hk
    by (eapply reachable_keys; [|eassumption]; reflexivity).
  assert (exhausted (self st)) as He.
  { unfold exhausted.
    destruct (Z.eq_dec (Z.of_nat (length (lookup_table (self st))))
                (256 - Z.of_nat (unique_byte_count
                                   (raw_file_data (self st)))))
      as [E|E]; [assumption|].
    exfalso. revert Ha. now apply get_replacement_not_exhausted. }
  pose proof (keys_inv_count Hk He) as Hc.
  destruct (to_bytes_Ok Hc) as (c & Hto & Hn).
  exists c. split; [assumption|]. intros fuel Hf.
  pose proof (keys_length Hk) as Hlen.
  rewrite compress_binary_eq.
  replace fuel with (n + S (fuel - n - 1)) by lia.
  rewrite (reachable_loop Hr), compress_loop_eq.
  apply Nat.eqb_neq in Hl. rewrite Hl, Hb.
  unfold serialize. cbn [self compressed_data cursor]. rewrite Hto.
  reflexivity.
Qed.

(** C5.  Terminal extra substitution: whenever the loop ends because the
    frequency has reached 1, its last turn allocated a code [r], found a
    most frequent pair [p] that occurs once, entered [r -> p] as one new
    last entry of the table and substituted [r] for [p] in the buffer. *)
Theorem terminal_extra_substitution fuel s0 raw k stf :
  loop fuel (enter s0 raw k) = Some (Ok stf) ->
  last_pair_frequency stf = 1 ->
  exists n st r k' p,
    reach s0 raw k n st
    /\ last_pair_frequency st <> 1
    /\ allocate (self st) (cursor st) = (Ok r, k')
    /\ max_pair (pair_frequencies (compressed_data st)) = Ok (p, 1)
    /\ occurrences p (adjacent_pairs (compressed_data st)) = 1
    /\ lookup_table (self stf) = lookup_table (self st) ++ [(r, p)]
    /\ compressed_data stf = replace p r (compressed_data st).
Proof.
  intros H Hf.
  destruct (@compress_loop_exit randbytes recursion_limit s0 raw k fuel
              0 (enter s0 raw k) stf)
    as (m & st & Hr & Hl & Hb); try assumption.
  - constructor.
  - discriminate.
  - apply loop_body_Next in Hb.
    destruct Hb as (r & k' & p & f & Ha & Hm & ->).
    cbn [last_pair_frequency] in Hf. subst f.
    exists m, st, r, k', p. repeat split; try assumption.
    + apply max_pair_frequencies in Hm. now destruct Hm.
    + cbn [self lookup_table set_table].
      apply (dict_set_fresh Byte.eqb byte_eqb_eq).
      apply get_replacement_Ok in Ha. now destruct Ha.
Qed.

(** C6.  Arg-max and tie-break: in every completed turn the frequency
    table lists the distinct pairs of the buffer in the order of their
    first occurrence, each with the number of its occurrences, and the
    pair substituted is the last item of that table whose count is
    maximal: no item before it has a greater count, every item after it
    has a smaller one. *)
Theorem arg_max_tie_break st st' :
  body st = Next st' ->
  pair_frequencies (compressed_data st)
  = map (fun q => (q, occurrences q (adjacent_pairs (compressed_data st))))
      (first_seen (adjacent_pairs (compressed_data st)))
  /\ exists r p l1 l2,
      pair_frequencies (compressed_data st)
      = l1 ++ (p, last_pair_frequency st') :: l2
      /\ Forall (fun it => snd it <= last_pair_frequency st') l1
      /\ Forall (fun it => snd it < last_pair_frequency st') l2
      /\ compressed_data st' = replace p r (compressed_data st).
Proof.
  intros Hb. split; [apply pair_frequencies_spec|].
  apply loop_body_Next in Hb.
  destruct Hb as (r & k' & p & f & Ha & Hm & ->).
  apply max_pair_Ok_iff in Hm. destruct Hm as (l1 & l2 & E & H1 & H2).
  exists r, p, l1, l2. cbn [last_pair_frequency compressed_data]. auto.
Qed.

End Claims.

(** ** The artifact as the specification reads it *)

(** C7, amended.  Decoder semantics: for every artifact that has at least
    [1 + 3 * entry_count] octets and whose trailer records carry pairwise
    distinct codes, the decoder rebuilds the table of those records, takes
    as payload the octets between offset 1 and the trailer, and its result
    is the concatenation, in order, of [expand o] over the payload octets
    [o]: it returns that concatenation as soon as the recursion limit
    allows it, and returns nothing else. *)
Theorem decoder_semantics (artifact : bytes) :
  1 + 3 * entry_count artifact <= length artifact ->
  NoDup (dict_keys (spec_table artifact)) ->
  reconstruct_dict artifact = Ok (spec_table artifact)
  /\ (forall lim,
         decompress_binary lim artifact
         = expand_payload lim (spec_table artifact) (spec_payload artifact))
  /\ (forall chunks,
         Forall2 (expand (spec_table artifact)) (spec_payload artifact) chunks ->
         exists lim0, forall lim,
             lim0 <= lim -> decompress_binary lim artifact = Ok (concat chunks))
  /\ (forall lim out,
         decompress_binary lim artifact = Ok out ->
         exists chunks,
           Forall2 (expand (spec_table artifact)) (spec_payload artifact) chunks
           /\ out = concat chunks).
Proof.
  intros Hlen Hnd.
  destruct artifact as [|c rest]; [simpl in Hlen; lia|].
  unfold spec_table, spec_trailer, spec_payload, entry_count in *.
  cbn [hd] in *.
  assert (reconstruct_dict (c :: rest)
          = Ok (records (Byte.to_nat c)
                  (skipn (length (c :: rest) - 3 * Byte.to_nat c) (c :: rest))))
    as Hrec.
  { rewrite reconstruct_dict_Ok by lia. now rewrite dict_of_NoDup. }
  assert (forall lim,
             decompress_binary lim (c :: rest)
             = expand_payload lim
                 (records (Byte.to_nat c)
                    (skipn (length (c :: rest) - 3 * Byte.to_nat c) (c :: rest)))
                 (firstn (length (c :: rest) - 1 - 3 * Byte.to_nat c)
                    (skipn 1 (c :: rest)))) as Hdec.
  { intros lim. rewrite decompress_binary_eq, Hrec. cbn [bind].
    rewrite records_length by (rewrite length_skipn; lia).
    f_equal. f_equal. lia. }
  split; [assumption | split; [assumption | split]].
  - intros chunks HF. destruct (expand_payload_complete HF) as [lim0 H0].
    exists lim0. intros lim Hl. rewrite Hdec. now apply H0.
  - intros lim out H. rewrite Hdec in H. eapply expand_payload_sound; eauto.
Qed.

(** C10.  Truncated artifact: [decompress_binary] raises [IndexError]
    whenever the artifact is empty or shorter than three times its first
    octet; on every other artifact the parsing of the trailer returns a
    table. *)
Theorem truncated_artifact lim (artifact : bytes) :
  (artifact = [] \/ length artifact < 3 * entry_count artifact ->
   decompress_binary lim artifact = Raise IndexError)
  /\ (artifact <> [] ->
      3 * entry_count artifact <= length artifact ->
      exists t, reconstruct_dict artifact = Ok t).
Proof.
  split.
  - intros H. unfold decompress_binary.
    rewrite reconstruct_dict_Raise by exact H. reflexivity.
  - intros Hne H. destruct artifact as [|c rest]; [congruence|].
    eexists. apply reconstruct_dict_Ok. exact H.
Qed.

Section Degenerate.
Variable randbytes : nat -> byte.
Variable recursion_limit : nat.

Lemma pair_frequencies_short (raw : bytes) :
  length raw <= 1 -> pair_frequencies raw = [].
Proof.
  destruct raw as [|a [|b t]]; simpl; try reflexivity. lia.
Qed.

(** What the encoder does on an input without a pair: the first turn of
    the loop runs, and ends by [break] or by [UnboundLocalError]. *)
Lemma compress_binary_short fuel raw k :
  length raw <= 1 ->
  compress_binary randbytes recursion_limit (S fuel) init raw k
  = match get_replacement randbytes recursion_limit
            {| lookup_table := []; raw_file_data := raw |} k with
    | (Ok _, _) => Some (Raise UnboundLocalError)
    | (Raise _, k') =>
        Some (Ok (x00 :: raw,
                  {| lookup_table := []; raw_file_data := raw |}, k'))
    end.
Proof.
  intros H. rewrite compress_binary_eq, compress_loop_eq.
  cbn [enter last_pair_frequency Nat.eqb]. unfold loop_body.
  cbn [self cursor compressed_data init lookup_table].
  rewrite pair_frequencies_short by assumption.
  destruct (get_replacement _ _ _ _) as [[r|e] k']; [reflexivity|].
  unfold serialize, enter, init, to_bytes, trailer.
  cbn [self lookup_table compressed_data length Byte.of_nat bind
       flat_map cursor raw_file_data].
  now rewrite app_nil_r.
Qed.

(** Inputs of length 0 or 1 on the code: the frequency table is empty,
    the first turn of the loop does not complete, an artifact, if one is
    returned, is the octet 0 followed by the input, and the decoder
    returns the input from the octet 0 followed by the input. *)
Lemma degenerate_input fuel k (raw : bytes) :
  length raw <= 1 ->
  pair_frequencies raw = []
  /\ (forall st',
         loop_body randbytes recursion_limit (enter init raw k) <> Next st')
  /\ (forall art s' k',
         compress_binary randbytes recursion_limit fuel init raw k
         = Some (Ok (art, s', k')) ->
         art = x00 :: raw /\ lookup_table s' = [])
  /\ (forall lim, decompress_binary lim (x00 :: raw) = Ok raw).
Proof.
  intros H. split; [now apply pair_frequencies_short | split; [|split]].
  - intros st' Hb. apply loop_body_Next in Hb.
    destruct Hb as (r & k' & p & f & _ & Hm & _).
    cbn [enter compressed_data] in Hm.
    rewrite pair_frequencies_short in Hm by assumption. discriminate.
  - intros art s' k'. destruct fuel as [|fuel]; [discriminate|].
    rewrite compress_binary_short by assumption.
    destruct (get_replacement _ _ _ _) as [[r|e] k'']; [discriminate|].
    intros [= <- <- _]. auto.
  - intros lim. apply decompress_no_table.
Qed.

(** C1.  On the empty input [compress_binary] raises
    [UnboundLocalError], whatever the random source draws, so the round
    trip returns no octets at all. *)
Theorem round_trip_empty_input fuel k :
  round_trip randbytes recursion_limit (S fuel) [] k
  = Some (Raise UnboundLocalError).
Proof.
  unfold round_trip.
  rewrite compress_binary_short by (simpl; lia).
  rewrite get_replacement_first; [reflexivity | |].
  - unfold exhausted. simpl. discriminate.
  - split; simpl; tauto.
Qed.

End Degenerate.

(** ** Concrete runs *)

(** The worked scenario of the specification. *)
Example worked_scenario :
  compress_binary ascending 1000 300 init [x41; x41; x41] 0
  = Some (Ok ([x02; x01; x00; x41; x41; x01; x00; x41],
              {| lookup_table := [(x00, (x41, x41)); (x01, (x00, x41))];
                 raw_file_data := [x41; x41; x41] |},
              2)).
Proof. vm_compute. reflexivity. Qed.

Example worked_scenario_decode :
  decompress_binary 1000 [x02; x01; x00; x41; x41; x01; x00; x41]
  = Ok [x41; x41; x41].
Proof. vm_compute. reflexivity. Qed.

Lemma scenario_reach1 :
  reachable ascending 1000 init scenario_raw 0 1 scenario_st1.
Proof.
  apply reach_next with (st := enter init scenario_raw 0).
  - constructor.
  - discriminate.
  - vm_compute. reflexivity.
Defined.

Lemma allocator_contract_witness :
  reachable ascending 1000 init scenario_raw 0 1 scenario_st1
  /\ length (lookup_table (self scenario_st1)) = 1
  /\ (forall r k',
         get_replacement ascending 1000 (self scenario_st1)
           (cursor scenario_st1) = (Ok r, k') ->
         ~ In r (dict_keys (lookup_table (self scenario_st1)))
         /\ ~ In r scenario_raw).
Proof.
  split; [exact scenario_reach1|].
  pose proof (allocator_contract scenario_reach1) as H.
  split; [exact (proj1 (proj2 H)) | exact (proj1 (proj2 (proj2 H)))].
Defined.

Lemma working_buffer_invariant_witness :
  reachable ascending 1000 init scenario_raw 0 1 scenario_st1
  /\ (forall b, In b (compressed_data scenario_st1) ->
                In b scenario_raw
                \/ In b (dict_keys (lookup_table (self scenario_st1)))).
Proof.
  split; [exact scenario_reach1|].
  exact (proj1 (working_buffer_invariant scenario_reach1)).
Defined.

Lemma table_exhausted_atomicity_witness :
  reachable ascending 1000 init all_bytes 0 0 (enter init all_bytes 0)
  /\ last_pair_frequency (enter init all_bytes 0) <> 1
  /\ get_replacement ascending 1000 (self (enter init all_bytes 0))
       (cursor (enter init all_bytes 0)) = (Raise TableExhausted, 0)
  /\ loop_body ascending 1000 (enter init all_bytes 0) = Break 0.
Proof.
  assert (reachable ascending 1000 init all_bytes 0 0 (enter init all_bytes 0))
    as Hr by constructor.
  assert (last_pair_frequency (enter init all_bytes 0) <> 1)
    as Hl by discriminate.
  assert (get_replacement ascending 1000 (self (enter init all_bytes 0))
            (cursor (enter init all_bytes 0)) = (Raise TableExhausted, 0))
    as Ha by (vm_compute; reflexivity).
  split; [exact Hr|]. split; [exact Hl|]. split; [exact Ha|].
  exact (proj1 (table_exhausted_atomicity Hr Hl Ha)).
Defined.

Lemma terminal_extra_substitution_witness :
  compress_loop ascending 1000 256 (enter init scenario_raw 0)
  = Some (Ok scenario_st2)
  /\ last_pair_frequency scenario_st2 = 1
  /\ exists n st r k' p,
      reachable ascending 1000 init scenario_raw 0 n st
      /\ last_pair_frequency st <> 1
      /\ get_replacement ascending 1000 (self st) (cursor st) = (Ok r, k')
      /\ max_pair (pair_frequencies (compressed_data st)) = Ok (p, 1)
      /\ occurrences p (adjacent_pairs (compressed_data st)) = 1
      /\ lookup_table (self scenario_st2) = lookup_table (self st) ++ [(r, p)]
      /\ compressed_data scenario_st2 = replace p r (compressed_data st).
Proof.
  assert (compress_loop ascending 1000 256 (enter init scenario_raw 0)
          = Some (Ok scenario_st2)) as H by (vm_compute; reflexivity).
  split; [exact H|]. split; [reflexivity|].
  exact (terminal_extra_substitution _ _ _ _ _ _ H eq_refl).
Defined.

Lemma arg_max_tie_break_witness :
  loop_body ascending 1000 (enter init tie_raw 0) = Next tie_st1
  /\ exists r p l1 l2,
      pair_frequencies tie_raw = l1 ++ (p, 2) :: l2
      /\ Forall (fun it => snd it <= 2) l1
      /\ Forall (fun it => snd it < 2) l2
      /\ compressed_data tie_st1 = replace p r tie_raw.
Proof.
  assert (loop_body ascending 1000 (enter init tie_raw 0) = Next tie_st1)
    as H by (vm_compute; reflexivity).
  split; [exact H|].
  exact (proj2 (@arg_max_tie_break ascending 1000 _ _ H)).
Defined.

(** The tie of [tie_raw]: [(x41, x42)] and [(x43, x44)] both occur twice,
    and the one seen last is substituted. *)
Example tie_frequencies :
  pair_frequencies tie_raw
  = [((x41, x42), 2); ((x42, x41), 1); ((x42, x43), 1);
     ((x43, x44), 2); ((x44, x43), 1)]
  /\ max_pair (pair_frequencies tie_raw) = Ok ((x43, x44), 2).
Proof. split; vm_compute; reflexivity. Qed.

Lemma decoder_semantics_witness :
  1 + 3 * entry_count scenario_artifact <= length scenario_artifact
  /\ NoDup (dict_keys (spec_table scenario_artifact))
  /\ reconstruct_dict scenario_artifact = Ok (spec_table scenario_artifact)
  /\ (forall lim,
         decompress_binary lim scenario_artifact
         = expand_payload lim (spec_table scenario_artifact)
             (spec_payload scenario_artifact)).
Proof.
  assert (1 + 3 * entry_count scenario_artifact <= length scenario_artifact)
    as H1 by (vm_compute; lia).
  assert (NoDup (dict_keys (spec_table scenario_artifact))) as H2.
  { vm_compute. repeat constructor; simpl; intuition discriminate. }
  pose proof (@decoder_semantics scenario_artifact H1 H2) as H.
  split; [exact H1|]. split; [exact H2|].
  split; [exact (proj1 H) | exact (proj1 (proj2 H))].
Defined.

Lemma truncated_artifact_witness :
  length [x03; x01; x02] < 3 * entry_count [x03; x01; x02]
  /\ decompress_binary 1000 [x03; x01; x02] = Raise IndexError.
Proof.
  assert (length [x03; x01; x02] < 3 * entry_count [x03; x01; x02])
    as H by (vm_compute; lia).
  split; [exact H|].
  exact (proj1 (truncated_artifact 1000 [x03; x01; x02]) (or_intror H)).
Defined.

(** A random source that keeps drawing the only octet of the input makes
    the allocator give up, and the encoder then returns the input behind a
    zero count. *)
Example degenerate_artifact :
  compress_binary (fun _ => x41) 0 1 init [x41] 0
  = Some (Ok ([x00; x41], {| lookup_table := []; raw_file_data := [x41] |}, 1)).
Proof. vm_compute. reflexivity. Qed.

(** C2.  On the one-octet input [x41], with the ascending draws, the
    first turn of the loop does run: it allocates a code, and
    [__max_pair], called on the empty frequency table, raises
    [UnboundLocalError], which leaves [compress_binary]: no artifact is
    returned. *)
Lemma degenerate_singleton_raises :
  loop_body ascending 1000 (enter init [x41] 0) = Crash UnboundLocalError
  /\ compress_binary ascending 1000 256 init [x41] 0
     = Some (Raise UnboundLocalError).
Proof. split; vm_compute; reflexivity. Qed.

(** C7, counterexample.  The two records of [duplicate_artifact] carry the
    code [x01]; the rebuilt table has one entry, the decoder expands the
    four octets after the count, and its result is not the concatenation
    of the expansions of the one octet between offset 1 and the trailer. *)
Lemma decoder_duplicate_codes :
  spec_payload duplicate_artifact = [x41]
  /\ reconstruct_dict duplicate_artifact = Ok [(x01, (x04, x05))]
  /\ decompress_binary 1 duplicate_artifact = Ok [x41; x04; x05; x02; x03]
  /\ ~ (exists chunks,
           Forall2 (expand [(x01, (x04, x05))])
             (spec_payload duplicate_artifact) chunks
           /\ decompress_binary 1 duplicate_artifact = Ok (concat chunks)).
Proof.
  split; [reflexivity|]. split; [reflexivity|]. split; [reflexivity|].
  intros (chunks & HF & H).
  change (spec_payload duplicate_artifact) with [x41] in HF.
  inversion HF as [|o out rest chunks' Ho Hrest]; subst.
  inversion Hrest; subst.
  inversion Ho as [o E | o c0 c1 out0 out1 E]; subst.
  - vm_compute in H. discriminate.
  - vm_compute in E. discriminate.
Qed.

(** C8.  A second call on the same object starts from the table the first
    call left: after compressing [x41; x41], compressing [x42; x42] yields
    an artifact of two entries, whereas a new object yields one entry from
    the same draws. *)
Theorem stale_table_second_call :
  compress_binary ascending 1000 256 init [x41; x41] 0
  = Some (Ok ([x01; x00; x00; x41; x41], used, 1))
  /\ compress_binary ascending 1000 256 used [x42; x42] 1
     = Some (Ok ([x02; x01; x00; x41; x41; x01; x42; x42],
                 {| lookup_table := [(x00, (x41, x41)); (x01, (x42, x42))];
                    raw_file_data := [x42; x42] |}, 2))
  /\ compress_binary ascending 1000 256 init [x42; x42] 1
     = Some (Ok ([x01; x01; x01; x42; x42],
                 {| lookup_table := [(x01, (x42, x42))];
                    raw_file_data := [x42; x42] |}, 2)).
Proof. repeat split; vm_compute; reflexivity. Qed.

(** The stale table also breaks the round trip: an input that contains a
    code of the first call is expanded on decoding. *)
Example stale_table_round_trip :
  compress_binary ascending 1000 256 used [x00; x00] 1
  = Some (Ok ([x02; x01; x00; x41; x41; x01; x00; x00],
              {| lookup_table := [(x00, (x41, x41)); (x01, (x00, x00))];
                 raw_file_data := [x00; x00] |}, 2))
  /\ decompress_binary 1000 [x02; x01; x00; x41; x41; x01; x00; x00]
     = Ok [x41; x41; x41; x41].
Proof. split; vm_compute; reflexivity. Qed.

(** * Further properties of the code *)

(** ** Substitution and the frequency table *)

Lemma replace_length_le old new data :
  length (replace old new data) <= length data.
Proof.
  induction data as [| a | a b rest IH1 IH2] using bytes_ind2.
  - simpl. lia.
  - simpl. lia.
  - rewrite replace_cons2. destruct (pair_eqb (a, b) old); simpl in *; lia.
Qed.

Lemma replace_shrinks old new data :
  In old (adjacent_pairs data) ->
  length (replace old new data) < length data.
Proof.
  induction data as [| a | a b rest IH1 IH2] using bytes_ind2.
  - simpl. tauto.
  - simpl. tauto.
  - rewrite replace_cons2, adjacent_pairs_cons2.
    destruct (pair_eqb (a, b) old) eqn:E.
    + intros _. pose proof (replace_length_le old new rest). simpl. lia.
    + apply pair_eqb_neq in E. intros [H|H]; [congruence|].
      apply IH2 in H. simpl in *. lia.
Qed.

Lemma replace_head old new y rest :
  exists l, replace old new (y :: rest) = y :: l
            \/ replace old new (y :: rest) = new :: l.
Proof.
  destruct rest as [|z rest].
  - exists []. now left.
  - rewrite replace_cons2. destruct (pair_eqb (y, z) old); eauto.
Qed.

Lemma replace_removes a b r data :
  r <> a -> r <> b ->
  ~ In (a, b) (adjacent_pairs (replace (a, b) r data)).
Proof.
  intros Ha Hb.
  induction data as [| x | x y rest IH1 IH2] using bytes_ind2.
  - simpl. tauto.
  - simpl. tauto.
  - rewrite replace_cons2. destruct (pair_eqb (x, y) (a, b)) eqn:E.
    + destruct (replace (a, b) r rest) as [|z l] eqn:El; [simpl; tauto|].
      rewrite adjacent_pairs_cons2. intros [H|H]; [congruence | auto].
    + apply pair_eqb_neq in E.
      destruct (replace_head (a, b) r y rest) as [l [El|El]];
        rewrite El in *; rewrite adjacent_pairs_cons2;
        intros [H|H]; auto; congruence.
Qed.

Lemma count_pair_sum (pairs : list (pair * nat)) (p : pair) :
  list_sum (map snd (count_pair pairs p)) = S (list_sum (map snd pairs)).
Proof.
  unfold count_pair.
  induction pairs as [|[q c] t IH]; [reflexivity|].
  simpl. destruct (pair_eqb q p) eqn:E.
  - simpl. lia.
  - destruct (dict_get pair_eqb p t) as [c'|]; simpl in *; rewrite IH; lia.
Qed.

Lemma fold_count_pair_sum (l : list pair) :
  forall acc,
    list_sum (map snd (fold_left count_pair l acc))
    = length l + list_sum (map snd acc).
Proof.
  induction l as [|p l IH]; intros acc; [reflexivity|].
  simpl. rewrite IH, count_pair_sum. lia.
Qed.

(** X12.  The frequency table of [compress_binary] has exactly one item
    for each distinct adjacent pair of the buffer, holding the number of
    positions at which the pair occurs, which is at least 1; it has no
    item for any other pair; and the counts add up to the number of
    adjacent positions, [len(data) - 1]. *)
Theorem pair_frequencies_total (data : bytes) :
  NoDup (dict_keys (pair_frequencies data))
  /\ (forall p,
         In p (adjacent_pairs data) ->
         dict_get pair_eqb p (pair_frequencies data)
         = Some (occurrences p (adjacent_pairs data))
         /\ 1 <= occurrences p (adjacent_pairs data))
  /\ (forall p,
         ~ In p (adjacent_pairs data) ->
         dict_get pair_eqb p (pair_frequencies data) = None
         /\ ~ In p (dict_keys (pair_frequencies data)))
  /\ (forall p c,
         In (p, c) (pair_frequencies data) ->
         In p (adjacent_pairs data)
         /\ c = occurrences p (adjacent_pairs data))
  /\ list_sum (map snd (pair_frequencies data)) = length data - 1.
Proof.
  assert (dict_keys (pair_frequencies data)
          = first_seen (adjacent_pairs data)) as Hkeys.
  { rewrite pair_frequencies_spec. unfold dict_keys.
    rewrite map_map. simpl. now rewrite map_id. }
  split; [|split; [|split; [|split]]].
  - rewrite Hkeys. apply first_seen_NoDup.
  - intros p Hp. split.
    + rewrite pair_frequencies_spec, dict_get_map.
      destruct (in_dec pair_eq_dec p (first_seen (adjacent_pairs data)))
        as [Hin|Hin]; [reflexivity|].
      rewrite first_seen_In in Hin. contradiction.
    + unfold occurrences. now apply count_occ_In.
  - intros p Hp. split.
    + rewrite pair_frequencies_spec, dict_get_map.
      destruct (in_dec pair_eq_dec p (first_seen (adjacent_pairs data)))
        as [Hin|Hin]; [|reflexivity].
      rewrite first_seen_In in Hin. contradiction.
    + rewrite Hkeys, first_seen_In. assumption.
  - intros p c Hin. rewrite pair_frequencies_spec in Hin.
    apply in_map_iff in Hin. destruct Hin as (q & Hq & Hin).
    injection Hq as -> <-. rewrite first_seen_In in Hin. now split.
  - unfold pair_frequencies. rewrite fold_count_pair_sum. simpl.
    rewrite adjacent_pairs_length. lia.
Qed.

Lemma pair_frequencies_total_witness :
  In (x43, x44) (adjacent_pairs tie_raw)
  /\ dict_get pair_eqb (x43, x44) (pair_frequencies tie_raw) = Some 2
  /\ ~ In (x44, x44) (adjacent_pairs tie_raw)
  /\ dict_get pair_eqb (x44, x44) (pair_frequencies tie_raw) = None.
Proof.
  assert (In (x43, x44) (adjacent_pairs tie_raw)) as H1
    by (simpl; intuition).
  assert (~ In (x44, x44) (adjacent_pairs tie_raw)) as H2
    by (simpl; intuition discriminate).
  pose proof (pair_frequencies_total tie_raw) as (_ & Hin & Hout & _).
  split; [exact H1|]. split; [exact (proj1 (Hin _ H1))|].
  split; [exact H2|]. exact (proj1 (Hout _ H2)).
Defined.

(** X13.  [__max_pair] raises exactly on the empty dictionary, and then it is
    [UnboundLocalError]; on any other dictionary it returns one of its
    items, whose count no item exceeds. *)
Theorem max_pair_raises_iff_empty (items : list (pair * nat)) :
  (forall e, max_pair items = Raise e
             <-> items = [] /\ e = UnboundLocalError)
  /\ (forall p f, max_pair items = Ok (p, f) ->
                  In (p, f) items
                  /\ Forall (fun it => snd it <= f) items).
Proof.
  split.
  - intros e. split.
    + intros H. destruct items as [|x t].
      * unfold max_pair in H. simpl in H. split; congruence.
      * destruct (@last_maximum_exists (x :: t)) as (p & f & Hm);
          [discriminate|].
        apply max_pair_last_maximum in Hm. congruence.
    + intros [-> ->]. reflexivity.
  - intros p f H. apply max_pair_Ok_iff in H.
    destruct H as (l1 & l2 & -> & H1 & H2). split; [apply in_elt|].
    apply Forall_app. split; [assumption|].
    constructor; [simpl; lia|].
    eapply Forall_impl; [|exact H2]. simpl. intros; lia.
Qed.

(** ** Expansion *)

Lemma get_original_raise depth :
  forall b t e, get_original depth b t = Raise e -> e = RecursionError.
Proof.
  induction depth as [|d IH]; intros b t e; rewrite get_original_eq;
    destruct (dict_get Byte.eqb b t) as [[c0 c1]|]; try discriminate.
  - intros [= <-]. reflexivity.
  - destruct (get_original d c0 t) as [b1|e1] eqn:E0; cbn [bind].
    + destruct (get_original d c1 t) as [b2|e2] eqn:E1; cbn [bind];
        [discriminate|].
      intros [= <-]. eapply IH; eauto.
    + intros [= <-]. eapply IH; eauto.
Qed.

Lemma expand_payload_raise depth t payload :
  forall e, expand_payload depth t payload = Raise e -> e = RecursionError.
Proof.
  induction payload as [|o rest IH]; intros e; simpl; [discriminate|].
  destruct (get_original depth o t) as [x|e1] eqn:E; cbn [bind].
  - destruct (expand_payload depth t rest) as [y|e2]; cbn [bind];
      [discriminate|].
    intros [= <-]. now apply IH.
  - intros [= <-]. eapply get_original_raise; eauto.
Qed.

Lemma expand_payload_mono depth t payload :
  forall out depth',
    expand_payload depth t payload = Ok out -> depth <= depth' ->
    expand_payload depth' t payload = Ok out.
Proof.
  induction payload as [|o rest IH]; intros out d' H Hd; simpl in *;
    [assumption|].
  destruct (get_original depth o t) as [x|] eqn:E; [|discriminate].
  destruct (expand_payload depth t rest) as [y|] eqn:E'; [|discriminate].
  rewrite (get_original_mono _ _ E Hd), (IH y d' eq_refl Hd). assumption.
Qed.

(** X14.  [__get_original] never returns on a code that the table maps to a
    pair containing that code itself: the recursion ends in
    [RecursionError] whatever the recursion limit. *)
Theorem get_original_self_reference (t : table) o c0 c1 :
  dict_get Byte.eqb o t = Some (c0, c1) ->
  c0 = o \/ c1 = o ->
  forall depth, get_original depth o t = Raise RecursionError.
Proof.
  intros E Hc depth.
  induction depth as [|d IH]; rewrite get_original_eq, E; [reflexivity|].
  destruct Hc as [->| ->].
  - rewrite IH. reflexivity.
  - destruct (get_original d c0 t) as [b1|e] eqn:E0; cbn [bind].
    + rewrite IH. reflexivity.
    + apply get_original_raise in E0. now subst.
Qed.

Lemma get_original_self_reference_witness :
  dict_get Byte.eqb x01 [(x01, (x02, x01))] = Some (x02, x01)
  /\ get_original 1000 x01 [(x01, (x02, x01))] = Raise RecursionError.
Proof.
  assert (dict_get Byte.eqb x01 [(x01, (x02, x01))] = Some (x02, x01))
    as H by reflexivity.
  split; [exact H|].
  exact (@get_original_self_reference _ x01 x02 x01 H (or_intror eq_refl) 1000).
Defined.

(** ** The decoder's results *)

(** X15.  The only exceptions of [decompress_binary] are [IndexError], raised
    exactly on an artifact that is empty or shorter than three times its
    first octet, and [RecursionError], raised by the expansion of an
    artifact that is long enough. *)
Theorem decompress_binary_raises lim (artifact : bytes) e :
  decompress_binary lim artifact = Raise e ->
  (e = IndexError
   /\ (artifact = [] \/ length artifact < 3 * entry_count artifact))
  \/ (e = RecursionError
      /\ artifact <> []
      /\ 3 * entry_count artifact <= length artifact).
Proof.
  intros H. destruct artifact as [|c rest].
  - left. unfold decompress_binary in H. simpl in H.
    split; [congruence | now left].
  - unfold entry_count. cbn [hd].
    destruct (Nat.lt_ge_cases (length (c :: rest)) (3 * Byte.to_nat c))
      as [Hlt|Hge].
    + left. unfold decompress_binary in H.
      rewrite reconstruct_dict_Raise in H by (right; exact Hlt).
      split; [cbn [bind] in H; congruence | now right].
    + right. rewrite decompress_binary_eq, reconstruct_dict_Ok in H
        by exact Hge.
      cbn [bind] in H. apply expand_payload_raise in H.
      split; [assumption | split; [discriminate | assumption]].
Qed.

Lemma decompress_binary_raises_witness :
  decompress_binary 50 [x01; x01; x01; x01; x01] = Raise RecursionError
  /\ ((RecursionError = IndexError
       /\ ([x01; x01; x01; x01; x01] = []
           \/ length [x01; x01; x01; x01; x01]
              < 3 * entry_count [x01; x01; x01; x01; x01]))
      \/ (RecursionError = RecursionError
          /\ [x01; x01; x01; x01; x01] <> []
          /\ 3 * entry_count [x01; x01; x01; x01; x01]
             <= length [x01; x01; x01; x01; x01])).
Proof.
  assert (decompress_binary 50 [x01; x01; x01; x01; x01]
          = Raise RecursionError) as H by (vm_compute; reflexivity).
  split; [exact H|].
  exact (@decompress_binary_raises 50 [x01; x01; x01; x01; x01] _ H).
Defined.

(** X16.  A result of [decompress_binary] does not depend on the recursion
    limit: what it returns under one limit it returns under every greater
    one. *)
Theorem decompress_binary_limit lim lim' (artifact out : bytes) :
  decompress_binary lim artifact = Ok out -> lim <= lim' ->
  decompress_binary lim' artifact = Ok out.
Proof.
  rewrite !decompress_binary_eq.
  destruct (reconstruct_dict artifact) as [t|e]; cbn [bind]; [|discriminate].
  intros H Hl. eapply expand_payload_mono; eauto.
Qed.

Lemma decompress_binary_limit_witness :
  decompress_binary 2 scenario_artifact = Ok scenario_raw
  /\ 2 <= 1000
  /\ decompress_binary 1000 scenario_artifact = Ok scenario_raw.
Proof.
  assert (decompress_binary 2 scenario_artifact = Ok scenario_raw)
    as H by (vm_compute; reflexivity).
  assert (2 <= 1000) as Hl by lia.
  split; [exact H|]. split; [exact Hl|].
  exact (@decompress_binary_limit 2 1000 scenario_artifact scenario_raw H Hl).
Defined.

(** X17.  An artifact whose first octet is 0 is decoded to the octets that
    follow it, whatever they are: the slice [data[-0:]] is the whole
    artifact, but no record is read from it. *)
Theorem zero_count_artifact lim (rest : bytes) :
  reconstruct_dict (x00 :: rest) = Ok []
  /\ decompress_binary lim (x00 :: rest) = Ok rest.
Proof.
  split; [reflexivity | apply decompress_no_table].
Qed.

(** ** The allocator's draws *)

Lemma not_admissible_rejected (s : XIPCompressor) (b : byte) :
  ~ admissible s b ->
  dict_mem Byte.eqb b (lookup_table s) || bytes_mem b (raw_file_data s) = true.
Proof.
  intros H.
  destruct (dict_mem Byte.eqb b (lookup_table s)
            || bytes_mem b (raw_file_data s)) eqn:E; [reflexivity|].
  apply rejected_iff in E. contradiction.
Qed.

Lemma get_replacement_skip randbytes (s : XIPCompressor) depth :
  forall k j,
    ~ exhausted s ->
    k <= j <= k + depth ->
    (forall i, k <= i < j -> ~ admissible s (randbytes i)) ->
    admissible s (randbytes j) ->
    get_replacement randbytes depth s k = (Ok (randbytes j), S j).
Proof.
  induction depth as [|d IH]; intros k j He Hj Hrej Hadm.
  - assert (j = k) as -> by lia. now apply get_replacement_first.
  - destruct (Nat.eq_dec j k) as [->|Hne];
      [now apply get_replacement_first|].
    rewrite get_replacement_eq.
    unfold exhausted in He. apply Z.eqb_neq in He. rewrite He.
    rewrite not_admissible_rejected by (apply Hrej; lia).
    apply IH; try assumption; [apply Z.eqb_neq in He; exact He | lia |].
    intros i Hi. apply Hrej. lia.
Qed.

Lemma get_replacement_give_up randbytes (s : XIPCompressor) depth :
  forall k,
    ~ exhausted s ->
    (forall i, k <= i <= k + depth -> ~ admissible s (randbytes i)) ->
    get_replacement randbytes depth s k
    = (Raise RecursionError, S (k + depth)).
Proof.
  induction depth as [|d IH]; intros k He Hrej;
    rewrite get_replacement_eq;
    pose proof He as He'; unfold exhausted in He'; apply Z.eqb_neq in He';
    rewrite He', not_admissible_rejected by (apply Hrej; lia).
  - now rewrite Nat.add_0_r.
  - rewrite IH; [f_equal; lia | assumption |].
    intros i Hi. apply Hrej. lia.
Qed.

(** X11.  While codes remain, [__get_replacement] returns the first draw of
    the random source that is neither a key of the table nor an octet of
    the input, having consumed the draws up to it; when the first
    [depth + 1] draws are all rejected it raises [RecursionError]. *)
Theorem get_replacement_first_admissible randbytes depth
    (s : XIPCompressor) k :
  ~ exhausted s ->
  (forall j,
      k <= j <= k + depth ->
      (forall i, k <= i < j -> ~ admissible s (randbytes i)) ->
      admissible s (randbytes j) ->
      get_replacement randbytes depth s k = (Ok (randbytes j), S j))
  /\ ((forall i, k <= i <= k + depth -> ~ admissible s (randbytes i)) ->
      get_replacement randbytes depth s k
      = (Raise RecursionError, S (k + depth))).
Proof.
  intros He. split.
  - intros j Hj Hrej Hadm. now apply get_replacement_skip.
  - intros Hrej. now apply get_replacement_give_up.
Qed.

Lemma get_replacement_first_admissible_witness :
  ~ exhausted (self scenario_st1)
  /\ get_replacement ascending 1000 (self scenario_st1) 0 = (Ok x01, 2).
Proof.
  assert (~ exhausted (self scenario_st1)) as He
    by (unfold exhausted; vm_compute; discriminate).
  split; [exact He|].
  apply (proj1 (@get_replacement_first_admissible ascending 1000
                  (self scenario_st1) 0 He) 1).
  - lia.
  - intros i Hi [Hk _]. assert (i = 0) as -> by lia.
    apply Hk. simpl. now left.
  - split; simpl; intuition discriminate.
Defined.

(** ** Whole calls of the encoder *)

Lemma replace_In_new old new data :
  In old (adjacent_pairs data) -> In new (replace old new data).
Proof.
  induction data as [| a | a b rest IH1 IH2] using bytes_ind2.
  - simpl. tauto.
  - simpl. tauto.
  - rewrite replace_cons2, adjacent_pairs_cons2.
    destruct (pair_eqb (a, b) old) eqn:E.
    + intros _. now left.
    + apply pair_eqb_neq in E. intros [H|H]; [congruence|].
      right. now apply IH2.
Qed.

Lemma reconstruct_serialized (t : table) (data : bytes) c :
  NoDup (dict_keys t) -> Byte.to_nat c = length t ->
  reconstruct_dict (c :: data ++ trailer t) = Ok t
  /\ spec_payload (c :: data ++ trailer t) = data.
Proof.
  intros Hnd Hc.
  assert (length (c :: data ++ trailer t) = S (length data + 3 * length t))
    as Hlen by (simpl; now rewrite length_app, trailer_length).
  split.
  - rewrite reconstruct_dict_Ok by (rewrite Hlen, Hc; lia).
    rewrite Hlen, Hc.
    replace (S (length data + 3 * length t) - 3 * length t)
      with (S (length data)) by lia.
    rewrite skipn_cons, skipn_app_length.
    rewrite <- (app_nil_r (trailer t)), records_trailer.
    now rewrite dict_of_NoDup.
  - unfold spec_payload, entry_count. cbn [hd]. rewrite Hlen, Hc.
    replace (S (length data + 3 * length t) - 1 - 3 * length t)
      with (length data) by lia.
    cbn [skipn]. apply firstn_app_length.
Qed.

Section Calls.
Variable randbytes : nat -> byte.
Variable recursion_limit : nat.

Abbreviation body := (loop_body randbytes recursion_limit).
Abbreviation loop := (compress_loop randbytes recursion_limit).
Abbreviation reach := (reachable randbytes recursion_limit).
Abbreviation compress := (compress_binary randbytes recursion_limit).

(** Where the loop ends, its table and buffer are those of a state in
    which its condition was tested. *)
Lemma compress_loop_reach s0 raw k fuel :
  forall n st stf,
    reach s0 raw k n st ->
    loop fuel st = Some (Ok stf) ->
    exists m st1,
      reach s0 raw k m st1
      /\ self stf = self st1
      /\ compressed_data stf = compressed_data st1.
Proof.
  induction fuel as [|fuel IH]; intros n st stf Hr H;
    rewrite compress_loop_eq in H;
    destruct (Nat.eqb_spec (last_pair_frequency st) 1) as [E|E];
    try discriminate;
    try (injection H as <-; now exists n, st).
  destruct (loop_body randbytes recursion_limit st) as [st'|k'|e] eqn:Hb;
    try discriminate.
  - apply (IH (S n) st' stf); [|assumption].
    apply reach_next with (st := st); assumption.
  - injection H as <-. now exists n, st.
Qed.

Lemma reachable_extends s0 raw k n st :
  reach s0 raw k n st ->
  exists added,
    lookup_table (self st) = lookup_table s0 ++ added
    /\ length added = n
    /\ length (compressed_data st) + n <= length raw.
Proof.
  induction 1 as [|n st st' Hr (added & Ht & Hn & Hl) Hf Hb].
  - exists []. simpl. rewrite app_nil_r. repeat split. lia.
  - apply loop_body_Next in Hb.
    destruct Hb as (r & k' & p & f & Ha & Hm & ->).
    apply get_replacement_Ok in Ha. destruct Ha as [Hk _].
    apply max_pair_frequencies in Hm. destruct Hm as [Hp _].
    pose proof (@replace_shrinks p r _ Hp).
    exists (added ++ [(r, p)]).
    cbn [self lookup_table set_table compressed_data].
    rewrite (dict_set_fresh Byte.eqb byte_eqb_eq) by assumption.
    rewrite Ht, <- app_assoc, length_app. simpl.
    split; [reflexivity | split; lia].
Qed.

Lemma trailer_app (t1 t2 : table) : trailer (t1 ++ t2) = trailer t1 ++ trailer t2.
Proof. unfold trailer. apply flat_map_app. Qed.

Lemma to_bytes_inv n c : to_bytes n = Ok c -> Byte.to_nat c = n /\ n <= 255.
Proof.
  unfold to_bytes. destruct (Byte.of_nat n) as [b|] eqn:E; [|discriminate].
  intros [= <-]. apply Byte.to_of_nat in E. pose proof E as H.
  split; [assumption|]. rewrite <- H. apply Byte.to_nat_bounded.
Qed.

(** What [compress_binary] returns, in terms of the state in which its
    loop ended. *)
Lemma compress_binary_Ok fuel s raw k art s' k' :
  compress fuel s raw k = Some (Ok (art, s', k')) ->
  exists n st c,
    reach s raw k n st
    /\ s' = self st
    /\ Byte.to_nat c = length (lookup_table s')
    /\ length (lookup_table s') <= 255
    /\ art = c :: compressed_data st ++ trailer (lookup_table s').
Proof.
  rewrite compress_binary_eq.
  destruct (compress_loop randbytes recursion_limit fuel (enter s raw k))
    as [[stf|e]|] eqn:Hloop; try discriminate.
  unfold serialize.
  destruct (to_bytes (length (lookup_table (self stf)))) as [c|e] eqn:Hc;
    cbn [bind]; [|discriminate].
  intros [= <- <- _].
  destruct (@compress_loop_reach s raw k fuel 0 (enter s raw k) stf)
    as (m & st1 & Hr & Hs & Hd); [constructor | assumption |].
  apply to_bytes_inv in Hc. destruct Hc as [Hc Hle].
  exists m, st1, c. rewrite Hd. rewrite Hs in *. auto.
Qed.

Lemma compress_loop_new fuel raw k r :
  2 <= length raw ->
  loop fuel (enter init raw k) = Some r ->
  exists st, r = Ok st /\ encoder_inv raw st.
Proof.
  intros Hl H.
  assert (raw <> []) as Hne by (intros ->; simpl in Hl; lia).
  pose proof (unique_byte_count_pos Hne) as Hu.
  destruct (@compress_loop_inv randbytes recursion_limit raw
              (Nat.max fuel 256) (enter init raw k)) as (st & Hloop & Hinv).
  - now apply encoder_inv_enter.
  - unfold enter, init. cbn [self lookup_table length]. lia.
  - exists st. split; [|assumption].
    apply compress_loop_mono with (fuel' := Nat.max fuel 256) in H; [|lia].
    congruence.
Qed.

(** X7.  A call of [compress_binary], on any object, only appends to the
    table it finds: the artifact is the count octet, the buffer, the
    entries that were in the table before the call and then the entries
    of this call; the buffer is shorter than the input by at least one
    octet for each entry added. *)
Theorem compress_binary_table_extends fuel s raw k art s' k' :
  compress fuel s raw k = Some (Ok (art, s', k')) ->
  exists added buffer c,
    lookup_table s' = lookup_table s ++ added
    /\ raw_file_data s' = raw
    /\ Byte.to_nat c = length (lookup_table s')
    /\ art = c :: buffer ++ trailer (lookup_table s) ++ trailer added
    /\ length buffer + length added <= length raw.
Proof.
  intros H. apply compress_binary_Ok in H.
  destruct H as (n & st & c & Hr & -> & Hc & _ & ->).
  destruct (reachable_extends Hr) as (added & Ht & Hn & Hl).
  exists added, (compressed_data st), c.
  rewrite Ht, trailer_app in *.
  repeat split; try assumption; try lia.
  eapply reachable_raw; eauto.
Qed.

(** X5.  On a new object the loop completes at most 255 turns. *)
Theorem encoder_turns_bounded raw k n st :
  reach init raw k n st -> n <= 255.
Proof.
  intros Hr.
  assert (keys_inv raw n st) as [I1 I2 I3 I4 I5 I6]
    by (eapply reachable_keys; [|eassumption]; reflexivity).
  destruct I6 as [->|I6]; [lia|].
  pose proof (unique_byte_count_pos I6). lia.
Qed.

(** X3.  On a new object [compress_binary] ends within 256 turns of its
    loop, for every input and every random source: with 256 turns allowed
    it has a result, and allowing more turns does not change it. *)
Theorem compress_binary_terminates fuel raw k :
  256 <= fuel ->
  compress fuel init raw k = compress 256 init raw k
  /\ compress 256 init raw k <> None.
Proof.
  intros Hf. destruct (Nat.le_gt_cases (length raw) 1) as [Hs|Hl].
  - destruct fuel as [|fuel]; [lia|].
    rewrite !compress_binary_short by assumption.
    split; [reflexivity|].
    destruct (get_replacement _ _ _ _) as [[r|e] k']; discriminate.
  - assert (raw <> []) as Hne by (intros ->; simpl in Hl; lia).
    pose proof (unique_byte_count_pos Hne) as Hu.
    destruct (@compress_loop_inv randbytes recursion_limit raw 256
                (enter init raw k)) as (st & Hloop & Hinv).
    + apply encoder_inv_enter; [reflexivity | lia].
    + unfold enter, init. cbn [self lookup_table length]. lia.
    + pose proof (compress_loop_mono _ _ _ Hloop Hf) as Hloop'.
      rewrite !compress_binary_eq, Hloop, Hloop'.
      split; [reflexivity | discriminate].
Qed.

(** X4.  On a new object the only exception that leaves [compress_binary]
    is [UnboundLocalError], and only for an input shorter than two octets;
    in particular the count of entries always fits its octet. *)
Theorem compress_binary_raises fuel raw k e :
  compress fuel init raw k = Some (Raise e) ->
  e = UnboundLocalError /\ length raw <= 1.
Proof.
  intros H. destruct (Nat.le_gt_cases (length raw) 1) as [Hs|Hl].
  - split; [|assumption].
    destruct fuel as [|fuel]; [discriminate|].
    rewrite compress_binary_short in H by assumption.
    destruct (get_replacement _ _ _ _) as [[r|e'] k']; congruence.
  - exfalso. rewrite compress_binary_eq in H.
    destruct (compress_loop randbytes recursion_limit fuel (enter init raw k))
      as [r|] eqn:Hloop; [|discriminate].
    destruct (@compress_loop_new fuel raw k r Hl Hloop) as (st & -> & Hinv).
    assert (raw <> []) as Hne by (intros ->; simpl in Hl; lia).
    pose proof (unique_byte_count_pos Hne) as Hu.
    pose proof (inv_size Hinv) as Hsz.
    destruct (@to_bytes_Ok (length (lookup_table (self st))))
      as (c & Hc & _); [lia|].
    unfold serialize in H. rewrite Hc in H. discriminate.
Qed.

(** X8.  In every completed turn the substituted pair occurred in the
    buffer and occurs in it no longer, the new code did not occur in the
    buffer and occurs in it now, and the buffer has become shorter. *)
Theorem substituted_pair_removed s0 raw k n st st' :
  reach s0 raw k n st ->
  body st = Next st' ->
  exists r p,
    compressed_data st' = replace p r (compressed_data st)
    /\ In p (adjacent_pairs (compressed_data st))
    /\ ~ In p (adjacent_pairs (compressed_data st'))
    /\ ~ In r (compressed_data st)
    /\ In r (compressed_data st')
    /\ length (compressed_data st') < length (compressed_data st).
Proof.
  intros Hr Hb.
  pose proof (buffer_inv_reachable Hr) as Hinv.
  apply loop_body_Next in Hb.
  destruct Hb as (r & k' & [a b] & f & Ha & Hm & ->).
  assert (~ In r (compressed_data st)) as Hfresh
    by (eapply buffer_inv_fresh; eauto).
  apply max_pair_frequencies in Hm. destruct Hm as [Hp _].
  destruct (adjacent_pairs_In _ _ _ Hp) as [Hina Hinb].
  exists r, (a, b). cbn [compressed_data].
  split; [reflexivity | split; [assumption | split; [|split; [|split]]]].
  - apply replace_removes; intros ->; contradiction.
  - assumption.
  - now apply replace_In_new.
  - now apply replace_shrinks.
Qed.

(** X9.  From an artifact that [compress_binary] returned on a new object,
    [__reconstruct_dict] rebuilds exactly the table the call left in the
    object; the first octet is the number of its entries, and the octets
    between it and the trailer are the payload. *)
Theorem compress_binary_table_round_trip fuel raw k art s' k' :
  compress fuel init raw k = Some (Ok (art, s', k')) ->
  reconstruct_dict art = Ok (lookup_table s')
  /\ entry_count art = length (lookup_table s')
  /\ length art = 1 + length (spec_payload art) + 3 * entry_count art.
Proof.
  intros H. apply compress_binary_Ok in H.
  destruct H as (n & st & c & Hr & -> & Hc & _ & ->).
  assert (keys_inv raw n st) as Hk
    by (eapply reachable_keys; [|eassumption]; reflexivity).
  destruct (@reconstruct_serialized (lookup_table (self st))
              (compressed_data st) c (keys_NoDup Hk) Hc) as [H1 H2].
  split; [assumption|]. split; [exact Hc|].
  rewrite H2. unfold entry_count. cbn [hd length].
  rewrite Hc, length_app, trailer_length. lia.
Qed.

(** X10.  An artifact that [compress_binary] returns on a new object has at
    most 255 entries and at most [1 + len(raw) + 2 * entries] octets. *)
Theorem compress_binary_size fuel raw k art s' k' :
  compress fuel init raw k = Some (Ok (art, s', k')) ->
  length (lookup_table s') <= 255
  /\ length art <= 1 + length raw + 2 * length (lookup_table s').
Proof.
  intros H. apply compress_binary_Ok in H.
  destruct H as (n & st & c & Hr & -> & Hc & Hle & ->).
  split; [assumption|].
  destruct (reachable_extends Hr) as (added & Ht & Hn & Hl).
  cbn [init lookup_table app] in Ht. rewrite Ht.
  cbn [length]. rewrite length_app, trailer_length. lia.
Qed.

End Calls.

(** ** Instances *)

Lemma round_trip_from_two_octets_witness :
  2 <= length tie_raw
  /\ 256 <= 256
  /\ 255 <= 1000
  /\ round_trip ascending 1000 256 tie_raw 0 = Some (Ok tie_raw).
Proof.
  assert (2 <= length tie_raw) as H1 by (simpl; lia).
  assert (256 <= 256) as H2 by lia.
  assert (255 <= 1000) as H3 by lia.
  split; [exact H1|]. split; [exact H2|]. split; [exact H3|].
  exact (@round_trip_from_two_octets ascending 1000 256 tie_raw 0 H1 H2 H3).
Defined.

Lemma compress_binary_table_extends_witness :
  compress_binary ascending 1000 256 used [x42; x42] 1
  = Some (Ok ([x02; x01; x00; x41; x41; x01; x42; x42],
              {| lookup_table := [(x00, (x41, x41)); (x01, (x42, x42))];
                 raw_file_data := [x42; x42] |}, 2))
  /\ exists added buffer c,
      [(x00, (x41, x41)); (x01, (x42, x42))] = lookup_table used ++ added
      /\ [x42; x42] = [x42; x42]
      /\ Byte.to_nat c = 2
      /\ [x02; x01; x00; x41; x41; x01; x42; x42]
         = c :: buffer ++ trailer (lookup_table used) ++ trailer added
      /\ length buffer + length added <= 2.
Proof.
  assert (compress_binary ascending 1000 256 used [x42; x42] 1
          = Some (Ok ([x02; x01; x00; x41; x41; x01; x42; x42],
                      {| lookup_table :=
                           [(x00, (x41, x41)); (x01, (x42, x42))];
                         raw_file_data := [x42; x42] |}, 2)))
    as H by (vm_compute; reflexivity).
  split; [exact H|].
  exact (@compress_binary_table_extends ascending 1000 256 used
           [x42; x42] 1 _ _ _ H).
Defined.

Lemma encoder_turns_bounded_witness :
  reachable ascending 1000 init scenario_raw 0 1 scenario_st1 /\ 1 <= 255.
Proof.
  split; [exact scenario_reach1|].
  exact (@encoder_turns_bounded ascending 1000 scenario_raw 0 1 scenario_st1
           scenario_reach1).
Defined.

Lemma compress_binary_terminates_witness :
  256 <= 300
  /\ compress_binary ascending 1000 300 init scenario_raw 0
     = compress_binary ascending 1000 256 init scenario_raw 0.
Proof.
  assert (256 <= 300) as H by lia.
  split; [exact H|].
  exact (proj1 (@compress_binary_terminates ascending 1000 300
                  scenario_raw 0 H)).
Defined.

Lemma compress_binary_raises_witness :
  compress_binary ascending 1000 256 init [x41] 0
  = Some (Raise UnboundLocalError)
  /\ UnboundLocalError = UnboundLocalError
  /\ length [x41] <= 1.
Proof.
  assert (compress_binary ascending 1000 256 init [x41] 0
          = Some (Raise UnboundLocalError)) as H by (vm_compute; reflexivity).
  split; [exact H|].
  exact (@compress_binary_raises ascending 1000 256 [x41] 0 _ H).
Defined.

Lemma substituted_pair_removed_witness :
  reachable ascending 1000 init tie_raw 0 0 (enter init tie_raw 0)
  /\ loop_body ascending 1000 (enter init tie_raw 0) = Next tie_st1
  /\ exists r p,
      compressed_data tie_st1 = replace p r tie_raw
      /\ In p (adjacent_pairs tie_raw)
      /\ ~ In p (adjacent_pairs (compressed_data tie_st1))
      /\ ~ In r tie_raw
      /\ In r (compressed_data tie_st1)
      /\ length (compressed_data tie_st1) < length tie_raw.
Proof.
  assert (reachable ascending 1000 init tie_raw 0 0 (enter init tie_raw 0))
    as Hr by constructor.
  assert (loop_body ascending 1000 (enter init tie_raw 0) = Next tie_st1)
    as Hb by (vm_compute; reflexivity).
  split; [exact Hr|]. split; [exact Hb|].
  exact (@substituted_pair_removed ascending 1000 init tie_raw 0 0 _ _ Hr Hb).
Defined.

Lemma compress_binary_table_round_trip_witness :
  compress_binary ascending 1000 256 init scenario_raw 0
  = Some (Ok (scenario_artifact, self scenario_st2, 2))
  /\ reconstruct_dict scenario_artifact
     = Ok (lookup_table (self scenario_st2)).
Proof.
  assert (compress_binary ascending 1000 256 init scenario_raw 0
          = Some (Ok (scenario_artifact, self scenario_st2, 2)))
    as H by (vm_compute; reflexivity).
  split; [exact H|].
  exact (proj1 (@compress_binary_table_round_trip ascending 1000 256
                  scenario_raw 0 _ _ _ H)).
Defined.

Lemma compress_binary_size_witness :
  compress_binary ascending 1000 256 init scenario_raw 0
  = Some (Ok (scenario_artifact, self scenario_st2, 2))
  /\ length (lookup_table (self scenario_st2)) <= 255
  /\ length scenario_artifact
     <= 1 + length scenario_raw + 2 * length (lookup_table (self scenario_st2)).
Proof.
  assert (compress_binary ascending 1000 256 init scenario_raw 0
          = Some (Ok (scenario_artifact, self scenario_st2, 2)))
    as H by (vm_compute; reflexivity).
  split; [exact H|].
  exact (@compress_binary_size ascending 1000 256 scenario_raw 0 _ _ _ H).
Defined.

(** ** Calls on an object that was used before *)

Lemma dict_get_app_skip (old added : table) (b : byte) :
  ~ In b (dict_keys old) ->
  dict_get Byte.eqb b (old ++ added) = dict_get Byte.eqb b added.
Proof.
  induction old as [|[k v] t IH]; simpl; [reflexivity|].
  intros H. destruct (Byte.eqb k b) eqn:E.
  - apply byte_eqb_eq in E. tauto.
  - apply IH. tauto.
Qed.

Lemma wf_table_components raw rt key c0 c1 :
  wf_table raw rt -> In (key, (c0, c1)) rt ->
  (In c0 raw \/ In c0 (dict_keys rt)) /\ (In c1 raw \/ In c1 (dict_keys rt)).
Proof.
  induction 1 as [|k d0 d1 older H1 H2 H3 H4 H5 IH]; simpl; [tauto|].
  intros [[= -> -> ->]|Hin]; [tauto|].
  destruct (IH Hin). tauto.
Qed.

Lemma get_original_skip_old raw (old added : table) depth :
  wf_table raw (rev added) ->
  (forall b, In b raw -> ~ In b (dict_keys old)) ->
  (forall key, In key (dict_keys added) -> ~ In key (dict_keys old)) ->
  forall b,
    In b raw \/ In b (dict_keys added) ->
    get_original depth b (old ++ added) = get_original depth b added.
Proof.
  intros Hwf Hraw Hap.
  induction depth as [|d IH]; intros b Hb;
    rewrite (get_original_eq _ b (old ++ added)), (get_original_eq _ b added);
    rewrite dict_get_app_skip by (destruct Hb; auto);
    destruct (dict_get Byte.eqb b added) as [[c0 c1]|] eqn:E;
    try reflexivity.
  apply (dict_get_In Byte.eqb byte_eqb_eq) in E.
  apply in_rev in E.
  destruct (@wf_table_components raw _ _ _ _ Hwf E) as [H0 H1].
  rewrite In_keys_rev in H0, H1.
  rewrite (IH c0 H0), (IH c1 H1). reflexivity.
Qed.

Lemma expand_payload_skip_old raw (old added : table) depth payload :
  wf_table raw (rev added) ->
  (forall b, In b raw -> ~ In b (dict_keys old)) ->
  (forall key, In key (dict_keys added) -> ~ In key (dict_keys old)) ->
  (forall b, In b payload -> In b raw \/ In b (dict_keys added)) ->
  expand_payload depth (old ++ added) payload
  = expand_payload depth added payload.
Proof.
  intros Hwf Hraw Hap. induction payload as [|o rest IH]; intros Hb;
    [reflexivity|].
  cbn [expand_payload].
  rewrite (@get_original_skip_old raw old added depth Hwf Hraw Hap)
    by auto with datatypes.
  rewrite IH by auto with datatypes. reflexivity.
Qed.

Lemma keys_and_octets (keys raw : bytes) :
  NoDup keys -> (forall b, In b raw -> ~ In b keys) ->
  length keys + unique_byte_count raw <= 256.
Proof.
  intros Hnd Hap. unfold unique_byte_count.
  rewrite <- length_app. change 256 with (length all_bytes).
  apply NoDup_incl_length; [|intros b _; apply all_bytes_In].
  apply NoDup_app; [assumption | apply NoDup_nodup |].
  intros b Hk Hr. apply nodup_In in Hr. exact (Hap b Hr Hk).
Qed.

Section Reuse.
Variable randbytes : nat -> byte.
Variable recursion_limit : nat.

Abbreviation body := (loop_body randbytes recursion_limit).
Abbreviation loop := (compress_loop randbytes recursion_limit).

Lemma reuse_inv_enter (s : XIPCompressor) raw k :
  2 <= length raw ->
  NoDup (dict_keys (lookup_table s)) ->
  (forall b, In b raw -> ~ In b (dict_keys (lookup_table s))) ->
  reuse_inv (lookup_table s) raw [] (enter s raw k).
Proof.
  intros Hl Hnd Hap.
  split; unfold enter;
    cbn [self lookup_table raw_file_data compressed_data
         last_pair_frequency rev dict_keys map].
  - reflexivity.
  - now rewrite app_nil_r.
  - constructor.
  - intros key [].
  - intros b Hb. now left.
  - apply flat_map_decode_nil.
  - rewrite app_nil_r.
    pose proof (@keys_and_octets (dict_keys (lookup_table s)) raw Hnd Hap)
      as H.
    unfold dict_keys in H. rewrite length_map in H. lia.
  - auto.
Qed.

Lemma reuse_inv_step old raw added st st' :
  reuse_inv old raw added st -> body st = Next st' ->
  exists r p, reuse_inv old raw (added ++ [(r, p)]) st'.
Proof.
  intros [H1 H2 H3 H4 H5 H6 H7 H8] H.
  apply loop_body_Next in H.
  destruct H as (r & k' & [a b] & f & Ha & Hm & ->).
  assert (~ exhausted (self st)) as Hne
    by (eapply allocate_not_exhausted; eauto).
  apply get_replacement_Ok in Ha. destruct Ha as [Hk Hr].
  apply max_pair_frequencies in Hm. destruct Hm as [Hp Hf].
  destruct (adjacent_pairs_In _ _ _ Hp) as [Hina Hinb].
  unfold exhausted in Hne. rewrite H1 in Hne, Hr. rewrite H2 in Hne, Hk.
  rewrite dict_keys_app, in_app_iff in Hk.
  assert (~ In r (compressed_data st)) as Hfresh
    by (intros Hin; destruct (H5 r Hin); tauto).
  exists r, (a, b).
  split;
    cbn [self lookup_table raw_file_data compressed_data
         last_pair_frequency cursor set_table];
    rewrite ?H2;
    rewrite ?(dict_set_fresh Byte.eqb byte_eqb_eq)
      by (rewrite dict_keys_app, in_app_iff; tauto);
    rewrite ?rev_app_distr; cbn [rev app].
  - assumption.
  - now rewrite app_assoc.
  - constructor; try (rewrite In_keys_rev); auto; tauto.
  - intros key Hin. rewrite dict_keys_app, in_app_iff in Hin.
    destruct Hin as [Hin|[<-|[]]]; [auto | tauto].
  - intros x Hin. rewrite dict_keys_app, in_app_iff. simpl.
    apply replace_In in Hin. destruct Hin as [->|Hin]; [tauto|].
    destruct (H5 x Hin); tauto.
  - now rewrite replace_decode.
  - rewrite !length_app in *. cbn [length]. lia.
  - intros Hf1. subst f.
    pose proof (occurrences_le (a, b) (adjacent_pairs (compressed_data st)))
      as Hle.
    rewrite adjacent_pairs_length in Hle.
    assert (1 <= occurrences (a, b) (adjacent_pairs (compressed_data st))).
    { unfold occurrences. apply count_occ_In. assumption. }
    pose proof (replace_length (a, b) r (compressed_data st)). lia.
Qed.

Lemma reuse_inv_cursor old raw added st k' :
  reuse_inv old raw added st ->
  reuse_inv old raw added
    {| self := self st;
       compressed_data := compressed_data st;
       last_pair_frequency := last_pair_frequency st;
       cursor := k' |}.
Proof. intros [H1 H2 H3 H4 H5 H6 H7 H8]. split; assumption. Qed.

Lemma compress_loop_reuse old raw fuel :
  forall added st,
    reuse_inv old raw added st ->
    (256 - Z.of_nat (unique_byte_count raw)
     - Z.of_nat (length (old ++ added)) < Z.of_nat fuel)%Z ->
    exists st' added',
      loop fuel st = Some (Ok st') /\ reuse_inv old raw added' st'.
Proof.
  induction fuel as [|fuel IH]; intros added st Hinv Hfuel;
    rewrite compress_loop_eq;
    destruct (Nat.eqb_spec (last_pair_frequency st) 1) as [E|E];
    try (now exists st, added).
  - pose proof (reuse_size Hinv). lia.
  - destruct (loop_body randbytes recursion_limit st) as [st'|k'|e] eqn:Hb.
    + destruct (reuse_inv_step Hinv Hb) as (r & p & Hinv').
      apply (IH (added ++ [(r, p)])); [assumption|].
      rewrite !length_app in *. cbn [length]. lia.
    + eexists. exists added. split; [reflexivity|].
      now apply reuse_inv_cursor.
    + apply loop_body_Crash in Hb. destruct Hb as (r & k' & _ & Hm).
      apply max_pair_raise in Hm. pose proof (reuse_len Hinv E). lia.
Qed.

(** X2.  A call on an object that was used before still round-trips when
    the keys left in its table are pairwise distinct and none of them is
    an octet of the new input: [compress_binary] returns an artifact and
    [decompress_binary] returns the input from it. *)
Theorem round_trip_on_used_object fuel (s : XIPCompressor) raw k :
  2 <= length raw ->
  NoDup (dict_keys (lookup_table s)) ->
  (forall b, In b raw -> ~ In b (dict_keys (lookup_table s))) ->
  256 <= fuel -> 255 <= recursion_limit ->
  exists art s' k',
    compress_binary randbytes recursion_limit fuel s raw k
    = Some (Ok (art, s', k'))
    /\ decompress_binary recursion_limit art = Ok raw.
Proof.
  intros Hl Hnd Hap Hf Hlim.
  assert (raw <> []) as Hne by (intros ->; simpl in Hl; lia).
  pose proof (unique_byte_count_pos Hne) as Hu.
  destruct (@compress_loop_reuse (lookup_table s) raw fuel []
              (enter s raw k)) as (st & added & Hloop & Hinv).
  - now apply reuse_inv_enter.
  - lia.
  - pose proof (reuse_size Hinv) as Hs.
    pose proof (reuse_table Hinv) as Ht.
    destruct (@to_bytes_Ok (length (lookup_table (self st))))
      as (c & Hc & Hn); [rewrite Ht; lia|].
    exists (c :: compressed_data st ++ trailer (lookup_table (self st))),
      (self st), (cursor st).
    split.
    + rewrite compress_binary_eq, Hloop. unfold serialize.
      rewrite Hc. reflexivity.
    + assert (NoDup (dict_keys (lookup_table (self st)))) as Hnd'.
      { rewrite Ht, dict_keys_app. apply NoDup_app; [assumption | |].
        - pose proof (wf_table_NoDup (reuse_wf Hinv)) as Hw.
          rewrite dict_keys_rev in Hw. apply NoDup_rev in Hw.
          now rewrite rev_involutive in Hw.
        - intros b Ho Ha. exact (reuse_apart Hinv _ Ha Ho). }
      destruct (@reconstruct_serialized (lookup_table (self st))
                  (compressed_data st) c Hnd' Hn) as [Hrec Hpay].
      rewrite decompress_binary_eq, Hrec. cbn [bind].
      unfold spec_payload, entry_count in Hpay. cbn [hd] in Hpay.
      rewrite Hn in Hpay.
      replace (length (c :: compressed_data st
                         ++ trailer (lookup_table (self st)))
               - 3 * length (lookup_table (self st)) - 1)
        with (length (c :: compressed_data st
                        ++ trailer (lookup_table (self st)))
              - 1 - 3 * length (lookup_table (self st))) by lia.
      rewrite Hpay, Ht.
      rewrite (@expand_payload_skip_old raw (lookup_table s) added
                 recursion_limit (compressed_data st) (reuse_wf Hinv) Hap
                 (reuse_apart Hinv) (reuse_buf Hinv)).
      rewrite (expand_payload_decode (raw := raw)).
      * now rewrite (reuse_dec Hinv).
      * apply (reuse_wf Hinv).
      * rewrite length_app in Hs. lia.
      * apply (reuse_buf Hinv).
Qed.

End Reuse.

Lemma round_trip_on_used_object_witness :
  exists art s' k',
    compress_binary ascending 1000 256 used [x42; x42] 1
    = Some (Ok (art, s', k'))
    /\ decompress_binary 1000 art = Ok [x42; x42].
Proof.
  apply (@round_trip_on_used_object ascending 1000 256 used [x42; x42] 1).
  - simpl. lia.
  - simpl. repeat constructor. simpl. tauto.
  - simpl. intros b [<-|[<-|[]]] [H|[]]; discriminate.
  - lia.
  - lia.
Defined.

(** ** The decoder on any artifact of sufficient length *)

Lemma dict_get_set (d : table) k k' v :
  dict_get Byte.eqb k (dict_set Byte.eqb k' v d)
  = if Byte.eqb k' k then Some v else dict_get Byte.eqb k d.
Proof.
  induction d as [|[q w] t IH]; simpl.
  - reflexivity.
  - destruct (Byte.eqb q k') eqn:E; simpl.
    + apply byte_eqb_eq in E. subst q.
      destruct (Byte.eqb k' k); reflexivity.
    + rewrite IH. destruct (Byte.eqb q k) eqn:E'; [|reflexivity].
      apply byte_eqb_eq in E'. subst q.
      destruct (Byte.eqb k' k) eqn:E''; [|reflexivity].
      apply byte_eqb_eq in E''. subst k'.
      rewrite byte_eqb_refl in E. discriminate.
Qed.

Lemma dict_get_snoc (d : table) k k' v :
  dict_get Byte.eqb k (d ++ [(k', v)])
  = match dict_get Byte.eqb k d with
    | Some w => Some w
    | None => if Byte.eqb k' k then Some v else None
    end.
Proof.
  induction d as [|[q w] t IH]; simpl; [reflexivity|].
  destruct (Byte.eqb q k); [reflexivity | exact IH].
Qed.

Lemma fold_set_record_get (rs : table) k :
  forall acc,
    dict_get Byte.eqb k (fold_left set_record rs acc)
    = match dict_get Byte.eqb k (rev rs) with
      | Some v => Some v
      | None => dict_get Byte.eqb k acc
      end.
Proof.
  induction rs as [|[k' v'] t IH]; intros acc; [reflexivity|].
  cbn [fold_left rev]. rewrite IH, dict_get_snoc.
  unfold set_record. cbn [fst snd]. rewrite dict_get_set.
  destruct (dict_get Byte.eqb k (rev t)); [reflexivity|].
  destruct (Byte.eqb k' k); reflexivity.
Qed.

Lemma dict_set_keys (d : table) k v x :
  In x (dict_keys (dict_set Byte.eqb k v d)) <-> In x (dict_keys d) \/ x = k.
Proof.
  induction d as [|[q w] t IH]; simpl.
  - intuition.
  - destruct (Byte.eqb q k) eqn:E; simpl.
    + apply byte_eqb_eq in E. subst. intuition.
    + rewrite IH. intuition.
Qed.

Lemma dict_set_NoDup (d : table) k v :
  NoDup (dict_keys d) -> NoDup (dict_keys (dict_set Byte.eqb k v d)).
Proof.
  induction d as [|[q w] t IH]; simpl; intros H.
  - constructor; [simpl; tauto | constructor].
  - inversion H as [|? ? Hq Ht]; subst.
    destruct (Byte.eqb q k) eqn:E; simpl; constructor; auto.
    rewrite dict_set_keys. intros [Hin| ->]; [contradiction|].
    rewrite byte_eqb_refl in E. discriminate.
Qed.

Lemma fold_set_record_keys (rs : table) :
  forall acc,
    NoDup (dict_keys acc) ->
    NoDup (dict_keys (fold_left set_record rs acc))
    /\ forall x, In x (dict_keys (fold_left set_record rs acc))
                 <-> In x (dict_keys acc) \/ In x (dict_keys rs).
Proof.
  induction rs as [|[k v] t IH]; intros acc H; simpl.
  - split; [assumption | intuition].
  - destruct (IH (set_record acc (k, v))) as [H1 H2].
    + now apply dict_set_NoDup.
    + split; [assumption|]. intros x. rewrite H2.
      unfold set_record. simpl. rewrite dict_set_keys. intuition.
Qed.

Lemma dict_of_length (rs : table) :
  length (dict_of rs) = length (nodup Byte.byte_eq_dec (dict_keys rs)).
Proof.
  destruct (@fold_set_record_keys rs []) as [H1 H2]; [constructor|].
  fold (dict_of rs) in H1, H2.
  rewrite <- (length_map fst (dict_of rs)). fold (dict_keys (dict_of rs)).
  apply Nat.le_antisymm; apply NoDup_incl_length;
    try assumption; try apply NoDup_nodup.
  - intros x Hx. apply nodup_In. apply H2 in Hx. simpl in Hx. tauto.
  - intros x Hx. apply nodup_In in Hx. apply H2. now right.
Qed.

(** X18.  On every artifact that is not empty and has at least three octets
    for each announced record, the decoder keeps one entry for each
    distinct code of the records, a code that is repeated standing for
    the pair of its last record, and it expands the octets from offset 1
    up to three octets for each distinct code before the end. *)
Theorem decoder_general_semantics lim (artifact : bytes) :
  artifact <> [] ->
  3 * entry_count artifact <= length artifact ->
  let distinct :=
    length (nodup Byte.byte_eq_dec (dict_keys (spec_table artifact))) in
  exists t,
    reconstruct_dict artifact = Ok t
    /\ length t = distinct
    /\ (forall code,
           dict_get Byte.eqb code t
           = dict_get Byte.eqb code (rev (spec_table artifact)))
    /\ decompress_binary lim artifact
       = expand_payload lim t
           (firstn (length artifact - 1 - 3 * distinct) (skipn 1 artifact)).
Proof.
  intros Hne Hlen distinct. destruct artifact as [|c rest]; [congruence|].
  unfold entry_count in Hlen. cbn [hd] in Hlen.
  exists (dict_of (spec_table (c :: rest))).
  assert (reconstruct_dict (c :: rest) = Ok (dict_of (spec_table (c :: rest))))
    as Hrec by (now apply reconstruct_dict_Ok).
  split; [assumption|]. split; [apply dict_of_length|]. split.
  - intros code. unfold dict_of. rewrite fold_set_record_get.
    destruct (dict_get Byte.eqb code (rev (spec_table (c :: rest))));
      reflexivity.
  - rewrite decompress_binary_eq, Hrec. cbn [bind].
    rewrite dict_of_length. fold distinct. f_equal. f_equal. lia.
Qed.

Lemma decoder_general_semantics_witness :
  duplicate_artifact <> []
  /\ 3 * entry_count duplicate_artifact <= length duplicate_artifact
  /\ exists t,
      reconstruct_dict duplicate_artifact = Ok t
      /\ length t = 1
      /\ (forall code,
             dict_get Byte.eqb code t
             = dict_get Byte.eqb code (rev (spec_table duplicate_artifact)))
      /\ decompress_binary 1 duplicate_artifact
         = expand_payload 1 t
             (firstn (length duplicate_artifact - 1 - 3 * 1)
                (skipn 1 duplicate_artifact)).
Proof.
  assert (duplicate_artifact <> []) as H1 by discriminate.
  assert (3 * entry_count duplicate_artifact <= length duplicate_artifact)
    as H2 by (vm_compute; lia).
  split; [exact H1|]. split; [exact H2|].
  exact (@decoder_general_semantics 1 duplicate_artifact H1 H2).
Defined.

(** ** An allocator that gives up *)

(** X6.  [except Exception] catches whatever [__get_replacement] raises:
    when the allocator fails in a state reached on a new object, be it by
    exhaustion or by [RecursionError] after too many rejected draws, the
    loop ends and [compress_binary] returns the artifact of that state. *)
Theorem allocator_failure_ends_loop randbytes recursion_limit
    raw k n st e k' :
  reachable randbytes recursion_limit init raw k n st ->
  last_pair_frequency st <> 1 ->
  get_replacement randbytes recursion_limit (self st) (cursor st)
  = (Raise e, k') ->
  exists c,
    Byte.to_nat c = length (lookup_table (self st))
    /\ forall fuel,
        256 <= fuel ->
        compress_binary randbytes recursion_limit fuel init raw k
        = Some (Ok (c :: compressed_data st
                      ++ trailer (lookup_table (self st)),
                    self st, k')).
Proof.
  intros Hr Hl Ha.
  assert (loop_body randbytes recursion_limit st = Break k') as Hb
    by (apply loop_body_Break; now exists e).
  assert (keys_inv raw n st) as Hk
    by (eapply reachable_keys; [|eassumption]; reflexivity).
  pose proof (keys_length Hk) as Hlen.
  assert (n <= 255) as Hn.
  { pose proof (keys_size Hk) as Hs. rewrite Hlen in Hs.
    destruct (keys_input Hk) as [->|Hne]; [lia|].
    pose proof (unique_byte_count_pos Hne). lia. }
  destruct (@to_bytes_Ok (length (lookup_table (self st))))
    as (c & Hto & Hc); [lia|].
  exists c. split; [assumption|]. intros fuel Hf.
  rewrite compress_binary_eq.
  replace fuel with (n + S (fuel - n - 1)) by lia.
  rewrite (reachable_loop Hr), compress_loop_eq.
  apply Nat.eqb_neq in Hl. rewrite Hl, Hb.
  unfold serialize. cbn [self compressed_data cursor]. rewrite Hto.
  reflexivity.
Qed.

Lemma allocator_failure_ends_loop_witness :
  get_replacement (fun _ => x41) 3 (self (enter init scenario_raw 0)) 0
  = (Raise RecursionError, 4)
  /\ exists c,
      Byte.to_nat c = 0
      /\ forall fuel,
          256 <= fuel ->
          compress_binary (fun _ => x41) 3 fuel init scenario_raw 0
          = Some (Ok (c :: scenario_raw ++ [],
                      self (enter init scenario_raw 0), 4)).
Proof.
  assert (get_replacement (fun _ => x41) 3
            (self (enter init scenario_raw 0)) 0
          = (Raise RecursionError, 4)) as Ha by (vm_compute; reflexivity).
  split; [exact Ha|].
  refine (@allocator_failure_ends_loop (fun _ => x41) 3 scenario_raw 0 0
            (enter init scenario_raw 0) RecursionError 4 _ _ Ha).
  - constructor.
  - discriminate.
Defined.

Lemma max_pair_raises_iff_empty_witness :
  max_pair (pair_frequencies tie_raw) = Ok ((x43, x44), 2)
  /\ In ((x43, x44), 2) (pair_frequencies tie_raw)
  /\ Forall (fun it => snd it <= 2) (pair_frequencies tie_raw).
Proof.
  assert (max_pair (pair_frequencies tie_raw) = Ok ((x43, x44), 2))
    as H by (vm_compute; reflexivity).
  split; [exact H|].
  exact (proj2 (@max_pair_raises_iff_empty (pair_frequencies tie_raw)) _ _ H).
Defined.
